(** * rssant: the feed parser (rssant_feedlib/parser.py) and the feed reader

    A shallow embedding of [FeedParser] and of the contracts of the
    modules it imports, followed by the properties of the feed
    pipeline that are stated about them. *)

From Stdlib Require Import ZArith String Ascii.
From stdpp Require Import gmap strings list fin_maps.

Local Open Scope string_scope.

(** ** Python values and operators used by the parser *)

(** A value that is either a [str] or [None]. *)
Abbreviation pystr := (option string).

(** [len(s)] *)
Definition len (s : string) : Z := Z.of_nat (String.length s).

(** The slice [s[:n]]: the first [n] characters of [s], all of [s] when it
    is shorter. *)
Fixpoint slice_to (n : nat) (s : string) : string :=
  match n, s with
  | O, _ => EmptyString
  | S _, EmptyString => EmptyString
  | S n', String c s' => String c (slice_to n' s')
  end.

(** Truthiness of a [str]-or-[None] value: [None] and [''] are falsy. *)
Definition truthy (v : pystr) : bool :=
  match v with
  | Some (String _ _) => true
  | _ => false
  end.

(** [a or b] where [b] is a [str]. *)
Definition py_or (a : pystr) (b : string) : string :=
  match a with
  | Some (String c s) => String c s
  | _ => b
  end.

(** [a or b] where [b] may itself be [None]. *)
Definition py_or_opt (a b : pystr) : pystr :=
  if truthy a then a else b.

(** ** FeedChecksum (rssant_feedlib/feed_checksum.py) *)

(** A content hash. *)
Abbreviation digest := N.

(** Modelled from the spec: the class FeedChecksum of
    rssant_feedlib/feed_checksum.py, which owns a mapping from story
    identifier to content hash.  The hash function itself is a parameter
    of every operation. *)
Abbreviation FeedChecksum := (gmap string digest).

(** Modelled from the spec: FeedChecksum.update(ident, content) computes a
    hash of [content] and compares it to the hash stored for [ident]; it
    answers whether the story is new or changed, and records the new hash
    in that case. *)
Definition FeedChecksum_update (content_hash : string → digest)
    (ident content : string) (c : FeedChecksum) : bool * FeedChecksum :=
  let new_sum := content_hash content in
  match c !! ident with
  | Some old_sum =>
      if decide (old_sum = new_sum) then (false, c)
      else (true, <[ident := new_sum]> c)
  | None => (true, <[ident := new_sum]> c)
  end.

(** ** The interpreter state: checksum objects and the log *)

(** A record emitted through [LOG.warning(msg, link, len(content))]. *)
Inductive LogRecord :=
  | Warning (msg : string) (link : pystr) (length : Z).

(** Checksum objects live in a store and are known by reference, so that
    aliasing between the caller's object, the parser's attribute and the
    result's attribute is explicit. *)
Abbreviation ref := nat.

Record State := mkState {
  heap : gmap ref FeedChecksum;
  logs : list LogRecord;
}.

(** The object a reference denotes. *)
Definition deref (σ : State) (l : ref) : FeedChecksum :=
  default ∅ (heap σ !! l).

Definition set_heap (h : gmap ref FeedChecksum) (σ : State) : State :=
  {| heap := h; logs := logs σ |}.

(** Allocation of a new checksum object holding [c]. *)
Definition alloc (c : FeedChecksum) (σ : State) : ref * State :=
  let l := fresh (dom (heap σ)) in
  (l, set_heap (<[l := c]> (heap σ)) σ).

(** Modelled from the spec: FeedChecksum() creates an empty tracker. *)
Definition FeedChecksum_new (σ : State) : ref * State := alloc ∅ σ.

(** Modelled from the spec: FeedChecksum.copy() produces an independent
    snapshot of the mapping, a new object. *)
Definition FeedChecksum_copy (l : ref) (σ : State) : ref * State :=
  alloc (deref σ l) σ.

(** [checksum.update(ident, content)] on the object behind a reference. *)
Definition update_at (content_hash : string → digest) (l : ref)
    (ident content : string) (σ : State) : bool * State :=
  let '(changed, c) := FeedChecksum_update content_hash ident content (deref σ l) in
  (changed, set_heap (<[l := c]> (heap σ)) σ).

Definition log_warning (r : LogRecord) (σ : State) : State :=
  {| heap := heap σ; logs := logs σ ++ [r] |}.

(** ** The modules imported by parser.py *)

(** A timestamp as the tokenizer hands it over: a [datetime] object or a
    string still to be parsed. *)
Inductive RawTime :=
  | TimeObject (timestamp : Z)
  | TimeString (text : string).

(** The functions parser.py imports from rssant_feedlib.processor,
    rssant_api.helper and rssant_common.validator, and the hash used by
    FeedChecksum.  Their code is outside the parser; every property below
    holds for all of them.  A validator answers [None] where the Python
    function raises [Invalid]. *)
Record Externals := {
  content_hash : string → digest;
  story_html_to_text : pystr → string;
  story_html_clean : pystr → string;
  story_has_mathjax : string → bool;
  process_story_links : string → pystr → string;
  normlize_url : pystr → pystr → pystr;
  validate_url : pystr → option string;
  shorten : string → nat → string;
  (** the check behind [T.url] *)
  url_validator : string → option string;
  (** the parser behind [T.datetime] *)
  parse_datetime : string → option Z;
}.

(** ** Records *)

(** The raw story mapping produced by the tokenizer. *)
Record RawStory := {
  rs_ident : string;
  rs_title : pystr;
  rs_url : pystr;
  rs_content : pystr;
  rs_summary : pystr;
  rs_image_url : pystr;
  rs_dt_published : option RawTime;
  rs_dt_updated : option RawTime;
  rs_author_name : pystr;
  rs_author_url : pystr;
  rs_author_avatar_url : pystr;
}.

(** The raw feed mapping produced by the tokenizer. *)
Record RawFeed := {
  rf_version : pystr;
  rf_title : pystr;
  rf_url : pystr;
  rf_home_url : pystr;
  rf_icon_url : pystr;
  rf_description : pystr;
  rf_dt_updated : option RawTime;
  rf_author_name : pystr;
  rf_author_url : pystr;
  rf_author_avatar_url : pystr;
}.

Record RawFeedResult := {
  raw_feed : RawFeed;
  raw_storys : list RawStory;
}.

(** The dict built by [_parse_story] and returned by [validate_story]. *)
Record Story := {
  ident : string;
  title : string;
  url : pystr;
  content : string;
  summary : string;
  has_mathjax : bool;
  image_url : pystr;
  dt_published : option RawTime;
  dt_updated : option RawTime;
  author_name : string;
  author_url : pystr;
  author_avatar_url : pystr;
}.

(** The dict built by [_parse_feed] and returned by [validate_feed]. *)
Record Feed := {
  f_version : pystr;
  f_title : string;
  f_url : pystr;
  f_home_url : pystr;
  f_icon_url : pystr;
  f_description : string;
  f_dt_updated : option RawTime;
  f_author_name : string;
  f_author_url : pystr;
  f_author_avatar_url : pystr;
}.

(** [FeedResult]: the checksum attribute is a reference to the object the
    parser advanced. *)
Record FeedResult := {
  feed : Feed;
  storys : list Story;
  checksum : ref;
}.

(** [FeedParserError(str(ex))]: the message of the [Invalid] exception,
    kept structured: the index set by [mark_index], when one was set, the
    key of the field and the reason. *)
Record FeedParserError := {
  err_index : option nat;
  err_field : string;
  err_reason : string;
}.

(** ** The schema validators (validr, compiled by rssant_common.validator) *)

(** The outcome of a field validator: the reason of an [Invalid]
    exception, or the validated value. *)
Abbreviation checked A := (string + A)%type.

(** Modelled from the spec: the validator [T.str.maxlen(n)], optional or
    required.  A required field that is absent or empty is rejected, one
    that is longer than [n] characters is rejected, an optional field that
    is absent becomes the empty string. *)
Definition T_str (maxlen : option nat) (optional : bool) (v : pystr) : checked string :=
  match v with
  | Some (String c s) =>
      match maxlen with
      | Some n =>
          if decide (String.length (String c s) ≤ n)%nat then inr (String c s)
          else inl "string length must <= maxlen"
      | None => inr (String c s)
      end
  | _ => if optional then inr "" else inl "required"
  end.

(** The bound of a [T.str] that declares none: validr gives every [T.str]
    a default [maxlen] of [1024 * 1024] characters. *)
Definition str_default_maxlen : nat := 1024 * 1024.
Arguments str_default_maxlen : simpl never.

(** Modelled from the spec: the validator [T.url] with its modifiers
    [optional] and [invalid_to_default].  A valid URL is kept, an absent
    optional one stays absent, and an invalid one degrades to absent under
    [invalid_to_default] while it is rejected otherwise. *)
Definition T_url (X : Externals) (optional invalid_to_default : bool)
    (v : pystr) : checked pystr :=
  match v with
  | Some (String c s) =>
      match url_validator X (String c s) with
      | Some u => inr (Some u)
      | None => if invalid_to_default then inr None else inl "invalid url"
      end
  | _ => if optional then inr None else inl "required"
  end.

(** Modelled from the spec: the validator [T.datetime.object.optional]:
    an optional timestamp, given as an object or parsed from a string. *)
Definition T_datetime (X : Externals) (v : option RawTime) : checked (option RawTime) :=
  match v with
  | None | Some (TimeString EmptyString) => inr None
  | Some (TimeObject t) => inr (Some (TimeObject t))
  | Some (TimeString s) =>
      match parse_datetime X s with
      | Some t => inr (Some (TimeObject t))
      | None => inl "invalid datetime"
      end
  end.

(** One key of a [T.dict] schema: the field validator runs under
    [mark_key], so that a failure carries the key. *)
Definition at_key {A B} (key : string) (r : checked A)
    (k : A → (string * string) + B) : (string * string) + B :=
  match r with
  | inl reason => inl (key, reason)
  | inr v => k v
  end.

Notation "'check' key 'as' x := r ; k" := (at_key key r (fun x => k))
  (at level 10, key at level 0, x name, r at level 100, k at level 200,
   format "'check'  key  'as'  x  :=  r ; '//' k").

(** [validate_story = compiler.compile(StorySchema)].  The key
    [has_mathjax=T.bool.optional] accepts every [bool], which is the only
    kind of value the parser stores there.  The key [content=T.str.optional]
    declares no bound and so has the default one. *)
Definition validate_story (X : Externals) (s : Story) : (string * string) + Story :=
  check "ident" as v_ident := T_str (Some 200) false (Some (ident s));
  check "title" as v_title := T_str (Some 200) false (Some (title s));
  check "url" as v_url := T_url X true false (url s);
  check "content" as v_content :=
    T_str (Some str_default_maxlen) true (Some (content s));
  check "summary" as v_summary := T_str (Some 300) true (Some (summary s));
  check "image_url" as v_image_url := T_url X true true (image_url s);
  check "dt_published" as v_dt_published := T_datetime X (dt_published s);
  check "dt_updated" as v_dt_updated := T_datetime X (dt_updated s);
  check "author_name" as v_author_name := T_str (Some 100) true (Some (author_name s));
  check "author_url" as v_author_url := T_url X true true (author_url s);
  check "author_avatar_url" as v_author_avatar_url := T_url X true true (author_avatar_url s);
  inr {| ident := v_ident; title := v_title; url := v_url;
         content := v_content; summary := v_summary;
         has_mathjax := has_mathjax s; image_url := v_image_url;
         dt_published := v_dt_published; dt_updated := v_dt_updated;
         author_name := v_author_name; author_url := v_author_url;
         author_avatar_url := v_author_avatar_url |}.

(** [validate_feed = compiler.compile(FeedSchema)] *)
Definition validate_feed (X : Externals) (f : Feed) : (string * string) + Feed :=
  check "version" as v_version := T_str (Some 200) false (f_version f);
  check "title" as v_title := T_str (Some 200) false (Some (f_title f));
  check "url" as v_url := T_url X false false (f_url f);
  check "home_url" as v_home_url := T_url X true true (f_home_url f);
  check "icon_url" as v_icon_url := T_url X true true (f_icon_url f);
  check "description" as v_description := T_str (Some 300) true (Some (f_description f));
  check "dt_updated" as v_dt_updated := T_datetime X (f_dt_updated f);
  check "author_name" as v_author_name := T_str (Some 100) true (Some (f_author_name f));
  check "author_url" as v_author_url := T_url X true true (f_author_url f);
  check "author_avatar_url" as v_author_avatar_url := T_url X true true (f_author_avatar_url f);
  inr {| f_version := Some v_version; f_title := v_title; f_url := v_url;
         f_home_url := v_home_url; f_icon_url := v_icon_url;
         f_description := v_description; f_dt_updated := v_dt_updated;
         f_author_name := v_author_name; f_author_url := v_author_url;
         f_author_avatar_url := v_author_avatar_url |}.

(** ** FeedParser *)

(** The attributes of a [FeedParser] object.  [_checksum] refers to the
    checksum object the parser owns. *)
Record FeedParser := {
  _checksum : ref;
  _validate : bool;
}.

(** [FeedParser.__init__(checksum=None, validate=True)] *)
Definition FeedParser_init (checksum : option ref) (validate : bool)
    (σ : State) : FeedParser * State :=
  let '(checksum, σ) :=
    match checksum with
    | None => FeedChecksum_new σ
    | Some c => FeedChecksum_copy c σ
    end in
  ({| _checksum := checksum; _validate := validate |}, σ).

(** [FeedParser._parse_feed] *)
Definition _parse_feed (X : Externals) (feed : RawFeed) : Feed :=
  let url := rf_url feed in
  let title := slice_to 200 (story_html_to_text X (rf_title feed)) in
  let home_url := normlize_url X (rf_home_url feed) url in
  let icon_url := normlize_url X (rf_icon_url feed) url in
  let description := slice_to 300 (story_html_to_text X (rf_description feed)) in
  let author_name := slice_to 100 (story_html_to_text X (rf_author_name feed)) in
  let author_url := normlize_url X (rf_author_url feed) url in
  let author_avatar_url := normlize_url X (rf_author_avatar_url feed) url in
  {| f_version := rf_version feed;
     f_title := title;
     f_url := url;
     f_home_url := home_url;
     f_icon_url := icon_url;
     f_description := description;
     f_dt_updated := rf_dt_updated feed;
     f_author_name := author_name;
     f_author_url := author_url;
     f_author_avatar_url := author_avatar_url |}.

Definition too_large_msg : string :=
  "too large story link=%r content length=%s, will only save plain text!".

(** [FeedParser._process_content] *)
Definition _process_content (X : Externals) (content : pystr) (link : pystr)
    (σ : State) : string * State :=
  let content := story_html_clean X content in
  let '(content, σ) :=
    if (len content >=? 1024 * 1024)%Z then
      let msg := too_large_msg in
      let σ := log_warning (Warning msg link (len content)) σ in
      (story_html_to_text X (Some content), σ)
    else (content, σ) in
  let content := process_story_links X content link in
  (content, σ).

(** [FeedParser._parse_story] *)
Definition _parse_story (X : Externals) (story : RawStory) (feed_url : pystr)
    (σ : State) : Story * State :=
  let ident := slice_to 200 (rs_ident story) in
  let title := slice_to 200 (story_html_to_text X (rs_title story)) in
  let url := normlize_url X (Some (py_or (rs_url story) (rs_ident story))) feed_url in
  let valid_url : pystr := validate_url X url in
  let base_url := py_or_opt valid_url feed_url in
  let image_url := normlize_url X (rs_image_url story) base_url in
  let author_name := slice_to 100 (story_html_to_text X (rs_author_name story)) in
  let author_url := normlize_url X (rs_author_url story) base_url in
  let author_avatar_url := normlize_url X (rs_author_avatar_url story) base_url in
  let '(content, σ) := _process_content X (rs_content story) base_url σ in
  let summary := story_html_clean X (rs_summary story) in
  let summary := shorten X (story_html_to_text X (Some summary)) 300 in
  let has_mathjax := story_has_mathjax X content in
  ({| ident := ident;
      title := title;
      url := valid_url;
      content := content;
      summary := summary;
      has_mathjax := has_mathjax;
      image_url := image_url;
      dt_published := rs_dt_published story;
      dt_updated := rs_dt_updated story;
      author_name := author_name;
      author_url := author_url;
      author_avatar_url := author_avatar_url |}, σ).

(** The loop of [_validate_result] over [enumerate(result.storys)], from
    index [i] on: each story is validated under [mark_index(i)], and the
    first [Invalid] ends the loop. *)
Fixpoint validate_storys (X : Externals) (i : nat) (storys : list Story)
    : FeedParserError + list Story :=
  match storys with
  | [] => inr []
  | s :: rest =>
      match validate_story X s with
      | inl (key, reason) =>
          inl {| err_index := Some i; err_field := key; err_reason := reason |}
      | inr s =>
          match validate_storys X (S i) rest with
          | inl ex => inl ex
          | inr storys => inr (s :: storys)
          end
      end
  end.

(** [FeedParser._validate_result] *)
Definition _validate_result (X : Externals) (result : FeedResult)
    : FeedParserError + FeedResult :=
  match validate_feed X (feed result) with
  | inl (key, reason) =>
      inl {| err_index := None; err_field := key; err_reason := reason |}
  | inr feed =>
      match validate_storys X 0 (storys result) with
      | inl ex => inl ex
      | inr storys =>
          inr {| feed := feed; storys := storys; checksum := checksum result |}
      end
  end.

(** [FeedParser._check_update_storys] *)
Fixpoint _check_update_storys (X : Externals) (self : FeedParser)
    (storys : list RawStory) (σ : State) : list RawStory * State :=
  match storys with
  | [] => ([], σ)
  | story :: rest =>
      let ident := rs_ident story in
      let content := py_or (rs_content story) "" in
      let '(changed, σ) := update_at (content_hash X) (_checksum self) ident content σ in
      let '(update_storys, σ) := _check_update_storys X self rest σ in
      (if changed then story :: update_storys else update_storys, σ)
  end.

(** The loop of [parse] over [update_storys]. *)
Fixpoint parse_storys (X : Externals) (update_storys : list RawStory)
    (feed_url : pystr) (σ : State) : list Story * State :=
  match update_storys with
  | [] => ([], σ)
  | story :: rest =>
      let '(story, σ) := _parse_story X story feed_url σ in
      let '(storys, σ) := parse_storys X rest feed_url σ in
      (story :: storys, σ)
  end.

(** [FeedParser.parse].  The answer is the raised [FeedParserError] or the
    returned [FeedResult]; the state is the one left behind in either
    case. *)
Definition parse (X : Externals) (self : FeedParser) (raw : RawFeedResult)
    (σ : State) : (FeedParserError + FeedResult) * State :=
  let '(update_storys, σ) := _check_update_storys X self (raw_storys raw) σ in
  let feed := _parse_feed X (raw_feed raw) in
  let feed_url := f_url feed in
  let '(storys, σ) := parse_storys X update_storys feed_url σ in
  let result := {| feed := feed; storys := storys; checksum := _checksum self |} in
  if _validate self then (_validate_result X result, σ)
  else (inr result, σ).

(** *** Views of a parse *)

(** The stories a call of [parse] retains: the value of [update_storys]. *)
Definition retained (X : Externals) (self : FeedParser) (raw : RawFeedResult)
    (σ : State) : list RawStory :=
  (_check_update_storys X self (raw_storys raw) σ).1.

(** The stories a call of [parse] builds from them, before validation. *)
Definition parsed (X : Externals) (self : FeedParser) (raw : RawFeedResult)
    (σ : State) : list Story :=
  let '(update_storys, σ) := _check_update_storys X self (raw_storys raw) σ in
  (parse_storys X update_storys (f_url (_parse_feed X (raw_feed raw))) σ).1.

(** The filter of [_check_update_storys] as a function of the checksum
    object alone. *)
Fixpoint changed_storys (h : string → digest) (storys : list RawStory)
    (c : FeedChecksum) : list RawStory * FeedChecksum :=
  match storys with
  | [] => ([], c)
  | story :: rest =>
      let '(changed, c) :=
        FeedChecksum_update h (rs_ident story) (py_or (rs_content story) "") c in
      let '(update_storys, c) := changed_storys h rest c in
      (if changed then story :: update_storys else update_storys, c)
  end.

#[global] Instance FeedParser_eq_dec : EqDecision FeedParser.
Proof. solve_decision. Defined.

(** A caller's sequence of [parse] calls, each on one of its parsers.
    Every answer is kept with the parser that gave it. *)
Fixpoint parse_all (X : Externals) (calls : list (FeedParser * RawFeedResult))
    (σ : State) : list (FeedParser * (FeedParserError + FeedResult)) * State :=
  match calls with
  | [] => ([], σ)
  | (parser, raw) :: rest =>
      let '(answer, σ) := parse X parser raw σ in
      let '(answers, σ) := parse_all X rest σ in
      ((parser, answer) :: answers, σ)
  end.

(** The part of a sequence of calls, or of answers, that belongs to one
    parser. *)
Definition of_parser {A} (parser : FeedParser) (l : list (FeedParser * A))
    : list (FeedParser * A) :=
  filter (λ x, x.1 = parser) l.

(** The link a story's content is processed with: [base_url] in
    [_parse_story], the story's own valid URL or else the URL of the
    feed. *)
Definition story_base_url (X : Externals) (story : RawStory) (feed_url : pystr)
    : pystr :=
  py_or_opt (validate_url X (normlize_url X
    (Some (py_or (rs_url story) (rs_ident story))) feed_url)) feed_url.

(** *** The schemas as predicates *)

(** A timestamp that validation lets through is absent or an object. *)
Definition checked_time (t : option RawTime) : Prop :=
  match t with
  | Some (TimeString _) => False
  | _ => True
  end.

(** What [StorySchema] says of a story. *)
Definition meets_story_schema (X : Externals) (s : Story) : Prop :=
  ident s ≠ "" ∧ (String.length (ident s) ≤ 200)%nat
  ∧ title s ≠ "" ∧ (String.length (title s) ≤ 200)%nat
  ∧ (String.length (summary s) ≤ 300)%nat
  ∧ (String.length (author_name s) ≤ 100)%nat
  ∧ checked_time (dt_published s) ∧ checked_time (dt_updated s)
  ∧ Forall (λ u : pystr, ∀ valid, u = Some valid →
              ∃ given, url_validator X given = Some valid)
      [url s; image_url s; author_url s; author_avatar_url s].

(** What [FeedSchema] says of a feed. *)
Definition meets_feed_schema (X : Externals) (f : Feed) : Prop :=
  (∃ v, f_version f = Some v ∧ v ≠ "" ∧ (String.length v ≤ 200)%nat)
  ∧ f_title f ≠ "" ∧ (String.length (f_title f) ≤ 200)%nat
  ∧ (∃ valid given, f_url f = Some valid ∧ url_validator X given = Some valid)
  ∧ (String.length (f_description f) ≤ 300)%nat
  ∧ (String.length (f_author_name f) ≤ 100)%nat
  ∧ checked_time (f_dt_updated f)
  ∧ Forall (λ u : pystr, ∀ valid, u = Some valid →
              ∃ given, url_validator X given = Some valid)
      [f_home_url f; f_icon_url f; f_author_url f; f_author_avatar_url f].

(** ** A helper of tests/feedlib/test_reader.py *)

(** [_parse_query(qs)], on the pairs that [parse_qsl(qs)] yields: each
    pair is stored in a dict, in order. *)
Definition _parse_query (pairs : list (string * string)) : gmap string string :=
  foldl (λ query kv, <[kv.1 := kv.2]> query) ∅ pairs.

(** ** A plain instance of the imported functions

    Used to run the parser on concrete feeds: text is left as it is, a
    URL is valid when it starts with [http], and the content hash is the
    injective encoding of the text. *)

Definition plain_url (u : string) : option string :=
  if String.prefix "http" u then Some u else None.

Definition plain : Externals := {|
  content_hash := fun s => Npos (encode s);
  story_html_to_text := fun v => py_or v "";
  story_html_clean := fun v => py_or v "";
  story_has_mathjax := fun _ => false;
  process_story_links := fun content _ => content;
  normlize_url := fun u _ => u;
  validate_url := fun u => plain_url (py_or u "");
  shorten := fun s width => slice_to width s;
  url_validator := plain_url;
  parse_datetime := fun _ => None;
|}.

(** [n] copies of a character. *)
Fixpoint chars (n : nat) (c : ascii) : string :=
  match n with
  | O => EmptyString
  | S n' => String c (chars n' c)
  end.

(** A text of [2^k] times the length of [s]. *)
Fixpoint doubled (k : nat) (s : string) : string :=
  match k with
  | O => s
  | S k' => doubled k' s ++ doubled k' s
  end.

Definition a_story (ident : string) (content : string) : RawStory := {|
  rs_ident := ident;
  rs_title := Some "title";
  rs_url := Some "http://example.com/story";
  rs_content := Some content;
  rs_summary := None;
  rs_image_url := None;
  rs_dt_published := None;
  rs_dt_updated := None;
  rs_author_name := None;
  rs_author_url := Some "not a url";
  rs_author_avatar_url := None;
|}.

(** The same story under another title, or without one. *)
Definition titled (story : RawStory) (t : pystr) : RawStory :=
  {| rs_ident := rs_ident story; rs_title := t; rs_url := rs_url story;
     rs_content := rs_content story; rs_summary := rs_summary story;
     rs_image_url := rs_image_url story;
     rs_dt_published := rs_dt_published story;
     rs_dt_updated := rs_dt_updated story;
     rs_author_name := rs_author_name story;
     rs_author_url := rs_author_url story;
     rs_author_avatar_url := rs_author_avatar_url story |}.

Definition a_feed : RawFeed := {|
  rf_version := Some "rss20";
  rf_title := Some "feed";
  rf_url := Some "http://example.com/feed.xml";
  rf_home_url := None;
  rf_icon_url := None;
  rf_description := None;
  rf_dt_updated := None;
  rf_author_name := None;
  rf_author_url := None;
  rf_author_avatar_url := None;
|}.

Definition empty_state : State := {| heap := ∅; logs := [] |}.

(** Construct a parser without a checksum and parse once. *)
Definition parse_fresh (X : Externals) (validate : bool) (raw : RawFeedResult)
    : (FeedParserError + FeedResult) * State :=
  let '(parser, σ) := FeedParser_init None validate empty_state in
  parse X parser raw σ.

(** ** The feed reader (rssant_feedlib/reader.py and async_reader.py) *)

Module Reader.

Abbreviation bytes := (list Byte.byte).
Abbreviation Headers := (list (string * string)).

(** Failures of the transport. *)
Inductive TransportError :=
  | DnsFailure
  | ConnectionFailure
  | Timeout.

(** Modelled from the spec: StatusCode (FeedResponseStatus) is a literal
    HTTP-like integer, any value, or one of the sentinel failure kinds. *)
Inductive StatusCode :=
  | HTTP (code : Z)
  | PRIVATE_ADDRESS_ERROR
  | CONTENT_TYPE_NOT_SUPPORT_ERROR
  | RSS_PROXY_ERROR
  | TRANSPORT_ERROR (e : TransportError).

(** Modelled from the spec: FetchResponse. *)
Record FetchResponse := {
  status : StatusCode;
  url : string;
  content : bytes;
  encoding : option string;
  feed_type : option string;
}.

(** Modelled from the spec: the option set of [read]. *)
Record Options := {
  use_proxy : bool;
  allow_private_address : bool;
  allow_non_webpage : bool;
  proxy_url : option string;
  proxy_token : option string;
}.

(** An IPv4 address, one octet per component. *)
Record Address := {
  o1 : Z; o2 : Z; o3 : Z; o4 : Z;
}.

(** Modelled from the spec: AddressGuard classifies an address as
    loopback (127/8), link-local (169.254/16), private range (10/8,
    172.16/12, 192.168/16) or otherwise not routable (0/8, and 224/3:
    multicast and reserved). *)
Definition is_private (a : Address) : bool :=
  ((o1 a =? 127) || ((o1 a =? 169) && (o2 a =? 254))
   || (o1 a =? 10)
   || ((o1 a =? 172) && (16 <=? o2 a) && (o2 a <=? 31))
   || ((o1 a =? 192) && (o2 a =? 168))
   || (o1 a =? 0) || (224 <=? o1 a))%Z.

(** An answer to an HTTP request. *)
Record HttpReply := {
  reply_status : Z;
  reply_headers : Headers;
  reply_body : bytes;
}.

(** Modelled from the spec: the body of a request to the relay,
    [{token, method, url, headers}].  The method is optional: the relay
    reads a request without one as a GET, and the relay of the tests
    accepts no method but [POST]. *)
Record RelayRequest := {
  rq_token : option string;
  rq_method : option string;
  rq_url : string;
  rq_headers : Headers;
}.

(** The points at which a fetch waits for the outside: host resolution
    and the two kinds of request.  The index is the type of the answer. *)
Inductive netE : Type → Type :=
  | Resolve (url : string) : netE (option Address)
  | Get (url : string) (headers : Headers) : netE (TransportError + HttpReply)
  | Post (url : string) (body : RelayRequest) : netE (TransportError + HttpReply).

(** A fetch as a program over these events: it ends with a value or
    waits for the answer to an event and goes on from it. *)
Inductive Fetch (A : Type) : Type :=
  | Ret (a : A)
  | Vis {T : Type} (e : netE T) (k : T → Fetch A).
Arguments Ret {A} a.
Arguments Vis {A T} e k.

(** The outside world: what each event is answered with. *)
Record Network := {
  resolve : string → option Address;
  http_get : string → Headers → TransportError + HttpReply;
  http_post : string → RelayRequest → TransportError + HttpReply;
}.

Definition answer (net : Network) {T} (e : netE T) : T :=
  match e with
  | Resolve u => resolve net u
  | Get u h => http_get net u h
  | Post u b => http_post net u b
  end.

(** An event that took place. *)
Definition IO : Type := sigT netE.

(** An event in which a request leaves the process. *)
Definition is_request (io : IO) : bool :=
  match projT2 io with
  | Resolve _ => false
  | Get _ _ | Post _ _ => true
  end.

(** Header lookup by name. *)
Fixpoint header (name : string) (h : Headers) : option string :=
  match h with
  | [] => None
  | (k, v) :: rest => if String.eqb k name then Some v else header name rest
  end.

(** Reading a decimal status. *)
Definition digit (c : ascii) : option Z :=
  let n := Z.of_N (N_of_ascii c) in
  if ((48 <=? n) && (n <=? 57))%Z then Some (n - 48)%Z else None.

Fixpoint digits (acc : Z) (s : string) : option Z :=
  match s with
  | EmptyString => Some acc
  | String c s' =>
      match digit c with
      | Some d => digits (10 * acc + d)%Z s'
      | None => None
      end
  end.

Definition parse_status (s : string) : option Z :=
  match s with
  | EmptyString => None
  | _ => digits 0 s
  end.

(** A response before its payload is examined. *)
Definition response (st : StatusCode) (u : string) (body : bytes) : FetchResponse :=
  {| status := st; url := u; content := body; encoding := None; feed_type := None |}.

(** A response that carries a failure: no content. *)
Definition failure (st : StatusCode) (u : string) : FetchResponse :=
  response st u [].

Section fetcher.

(** Modelled from the spec: ContentSniffer, EncodingDetector and the
    reading of the declared charset are given by contract only, and the
    user agent is a fixed text. *)
Variable classify : option string → bytes → bool * option string.
Variable detect : option string → bytes → string.
Variable declared_charset : option string → option string.
Variable user_agent : string.

(** Modelled from the spec: steps 4 and 5 of the Fetcher populate
    [encoding] and [feed_type] from the payload. *)
Definition enrich (ctype : option string) (r : FetchResponse) : FetchResponse :=
  {| status := status r; url := url r; content := content r;
     encoding := Some (detect (declared_charset ctype) (content r));
     feed_type := snd (classify ctype (content r)) |}.

(** Modelled from the spec: steps 3 to 6 of the Fetcher on the answer to
    a direct request. *)
Definition finish (o : Options) (u : string) (reply : HttpReply) : FetchResponse :=
  let ctype := header "content-type" (reply_headers reply) in
  if negb (fst (classify ctype (reply_body reply))) && negb (allow_non_webpage o)
  then failure CONTENT_TYPE_NOT_SUPPORT_ERROR u
  else enrich ctype (response (HTTP (reply_status reply)) u (reply_body reply)).

(** Modelled from the spec: the headers of a request, a fixed descriptive
    user agent. *)
Definition request_headers : Headers := [("user-agent", user_agent)].

(** Modelled from the spec: step 2 of the Fetcher.  AddressGuard resolves
    the host and classifies the address, unless private addresses are
    allowed; a rejection ends the fetch before the request, an
    unresolvable host is a transport error of its own, and otherwise the
    request is issued. *)
Definition guarded (o : Options) (u : string)
    (request : Fetch FetchResponse) : Fetch FetchResponse :=
  if allow_private_address o then request
  else
    Vis (Resolve u) (fun a =>
      match a with
      | None => Ret (failure (TRANSPORT_ERROR DnsFailure) u)
      | Some a =>
          if is_private a then Ret (failure PRIVATE_ADDRESS_ERROR u)
          else request
      end).

Definition direct (o : Options) (u : string) : Fetch FetchResponse :=
  Vis (Get u request_headers) (fun r =>
    match r with
    | inl e => Ret (failure (TRANSPORT_ERROR e) u)
    | inr reply => Ret (finish o u reply)
    end).

(** The header of the relay's answer that carries the upstream status. *)
Definition proxy_status_header : string := "x-rss-proxy-status".

(** Modelled from the spec: the outcome mapping of ProxyRelayClient.  The
    marker [ERROR] gives [RSS_PROXY_ERROR] with empty content.  A numeric
    status is the status of the upstream and the body is its payload, to
    which steps 3 to 6 of the Fetcher apply as they do to the answer to a
    direct request.  An answer of the relay that carries neither is a
    failure of the relay as well, as the test [test_read_rss_proxy_error]
    expects. *)
Definition decode_envelope (o : Options) (u : string) (reply : HttpReply)
    : FetchResponse :=
  match header proxy_status_header (reply_headers reply) with
  | Some v =>
      if String.eqb v "ERROR" then failure RSS_PROXY_ERROR u
      else
        match parse_status v with
        | Some code =>
            finish o u {| reply_status := code;
                          reply_headers := reply_headers reply;
                          reply_body := reply_body reply |}
        | None => failure RSS_PROXY_ERROR u
        end
  | None => failure RSS_PROXY_ERROR u
  end.

(** Modelled from the spec: the request ProxyRelayClient sends for
    relay(url, headers, token, proxy_url).  It names no method. *)
Definition relay_request (u : string) (headers : Headers)
    (token : option string) : RelayRequest :=
  {| rq_token := token; rq_method := None; rq_url := u;
     rq_headers := headers |}.

(** Modelled from the spec: ProxyRelayClient.relay, followed by step 1 of
    the Fetcher on what the relay returns. *)
Definition relay (o : Options) (u : string) (headers : Headers)
    (token : option string) (proxy : string) : Fetch FetchResponse :=
  Vis (Post proxy (relay_request u headers token)) (fun r =>
    match r with
    | inl e => Ret (failure (TRANSPORT_ERROR e) u)
    | inr reply => Ret (decode_envelope o u reply)
    end).

(** Modelled from the spec: the public operation [read(url, **options)]
    of the Fetcher, as the blocking reader runs it. *)
Definition read (u : string) (o : Options) : Fetch FetchResponse :=
  match use_proxy o, proxy_url o with
  | true, Some proxy => relay o u request_headers (proxy_token o) proxy
  | _, _ => guarded o u (direct o u)
  end.

(** Modelled from the spec: the suspend-capable reader.  Its [read] is a
    coroutine, written as the states it can be suspended in: it hands
    control back at each wait for the outside, the resolution of the host,
    the request and the request to the relay, and nowhere else. *)
Inductive Coroutine :=
  | Started (u : string) (o : Options)
  | AwaitingAddress (u : string) (o : Options)
  | AwaitingResponse (u : string) (o : Options)
  | AwaitingRelay (u : string) (o : Options) (proxy : string)
  | Completed (r : FetchResponse).

(** The event a suspended coroutine waits for. *)
Definition awaited (c : Coroutine) : option IO :=
  match c with
  | AwaitingAddress u _ => Some (existT _ (Resolve u))
  | AwaitingResponse u _ => Some (existT _ (Get u request_headers))
  | AwaitingRelay u o proxy =>
      Some (existT _ (Post proxy (relay_request u request_headers (proxy_token o))))
  | Started _ _ | Completed _ => None
  end.

(** Resuming a coroutine: it takes the answer to the event it waited for
    and runs up to its next wait, or to its end. *)
Definition resume (net : Network) (c : Coroutine) : Coroutine :=
  match c with
  | Started u o =>
      if use_proxy o then
        match proxy_url o with
        | Some proxy => AwaitingRelay u o proxy
        | None =>
            if allow_private_address o then AwaitingResponse u o
            else AwaitingAddress u o
        end
      else if allow_private_address o then AwaitingResponse u o
      else AwaitingAddress u o
  | AwaitingAddress u o =>
      match resolve net u with
      | None => Completed (failure (TRANSPORT_ERROR DnsFailure) u)
      | Some a =>
          if is_private a then Completed (failure PRIVATE_ADDRESS_ERROR u)
          else AwaitingResponse u o
      end
  | AwaitingResponse u o =>
      match http_get net u request_headers with
      | inl e => Completed (failure (TRANSPORT_ERROR e) u)
      | inr reply => Completed (finish o u reply)
      end
  | AwaitingRelay u o proxy =>
      match http_post net proxy
              (relay_request u request_headers (proxy_token o)) with
      | inl e => Completed (failure (TRANSPORT_ERROR e) u)
      | inr reply => Completed (decode_envelope o u reply)
      end
  | Completed r => Completed r
  end.

End fetcher.

(** *** The two execution modes *)

(** Blocking: every event is answered on the spot.  The result comes
    with the events that took place, in order. *)
Fixpoint run_blocking {A} (net : Network) (p : Fetch A) : A * list IO :=
  match p with
  | Ret a => (a, [])
  | Vis e k =>
      let '(a, trace) := run_blocking net (k (answer net e)) in
      (a, existT _ e :: trace)
  end.

Definition completed (c : Coroutine) : option FetchResponse :=
  match c with
  | Completed r => Some r
  | _ => None
  end.

Section readers.

Variable classify : option string → bytes → bool * option string.
Variable detect : option string → bytes → string.
Variable declared_charset : option string → option string.
Variable user_agent : string.

(** Modelled from the spec: [FeedReader.read], the blocking reader. *)
Definition FeedReader_read (net : Network) (u : string) (o : Options)
    : FetchResponse :=
  fst (run_blocking net (read classify detect declared_charset user_agent u o)).

(** The events a blocking read goes through. *)
Definition FeedReader_trace (net : Network) (u : string) (o : Options)
    : list IO :=
  snd (run_blocking net (read classify detect declared_charset user_agent u o)).

(** Modelled from the spec: [AsyncFeedReader.read] creates the coroutine
    of the suspend-capable reader. *)
Definition AsyncFeedReader_read (u : string) (o : Options) : Coroutine :=
  Started u o.

(** The event loop runs one coroutine until it completes, within [fuel]
    resumptions, and records the events it waited for. *)
Fixpoint run_until_complete (fuel : nat) (net : Network) (c : Coroutine)
    : option (FetchResponse * list IO) :=
  match c with
  | Completed r => Some (r, [])
  | _ =>
      match fuel with
      | O => None
      | S fuel' =>
          match run_until_complete fuel' net
                  (resume classify detect declared_charset user_agent net c) with
          | Some (r, trace) =>
              Some (r, (option_list (awaited user_agent c) ++ trace)%list)
          | None => None
          end
      end
  end.

(** The event loop runs a pool of coroutines, resuming each in turn. *)
Fixpoint gather (fuel : nat) (net : Network) (pool : list Coroutine)
    : option (list FetchResponse) :=
  match mapM completed pool, fuel with
  | Some results, _ => Some results
  | None, O => None
  | None, S fuel' =>
      gather fuel' net
        (resume classify detect declared_charset user_agent net <$> pool)
  end.

End readers.

(** *** A local server, as in tests/feedlib/test_reader.py *)

(** A sniffer that supports everything but images and CSV. *)
Definition sniff (ctype : option string) (body : bytes) : bool * option string :=
  match ctype with
  | Some "image/png" | Some "text/csv" => (false, None)
  | _ => (true, Some "rss")
  end.

Definition utf8 (charset : option string) (body : bytes) : string :=
  default "utf-8" charset.

Definition no_charset (ctype : option string) : option string := None.

Definition agent : string := "rssant".

(** The answer of the test server to [/status]: the status, with its
    decimal digits as body. *)
Definition status_reply (code : Z) (digits : string) : HttpReply :=
  {| reply_status := code;
     reply_headers := [("content-type", "text/html")];
     reply_body := list_byte_of_string digits |}.

(** The answer of the test server to [/non-webpage]: status 200 and a
    payload that is declared an image. *)
Definition image_reply : HttpReply :=
  {| reply_status := 200;
     reply_headers := [("content-type", "image/png")];
     reply_body := list_byte_of_string "xxxxxxxx" |}.

(** The answer of the test relay: HTTP 200 and the outcome in the status
    header. *)
Definition relay_reply (marker body : string) : HttpReply :=
  {| reply_status := 200;
     reply_headers := [(proxy_status_header, marker)];
     reply_body := list_byte_of_string body |}.

(** The server listens on the loopback address; it answers every request
    with [page] and every relayed request with [marker]. *)
Definition local_server (page : HttpReply) (marker : string) : Network :=
  {| resolve := fun _ => Some {| o1 := 127; o2 := 0; o3 := 0; o4 := 1 |};
     http_get := fun _ _ => inr page;
     http_post := fun _ _ => inr (relay_reply marker "404") |}.

Definition options (proxy private non_webpage : bool) : Options :=
  {| use_proxy := proxy;
     allow_private_address := private;
     allow_non_webpage := non_webpage;
     proxy_url := Some "http://localhost/rss-proxy";
     proxy_token := Some "TEST_RSS_PROXY_TOKEN" |}.

(** The two readers of the tests, set up with this sniffer and agent. *)
Definition local_read (net : Network) (u : string) (o : Options) : FetchResponse :=
  FeedReader_read sniff utf8 no_charset agent net u o.

Definition local_trace (net : Network) (u : string) (o : Options) : list IO :=
  FeedReader_trace sniff utf8 no_charset agent net u o.

Definition local_async (u : string) (o : Options) : Coroutine :=
  AsyncFeedReader_read u o.

Definition local_loop (fuel : nat) (net : Network) (c : Coroutine)
    : option (FetchResponse * list IO) :=
  run_until_complete sniff utf8 no_charset agent fuel net c.

(** A relay that answers every request with [envelope]. *)
Definition relay_server (envelope : HttpReply) : Network :=
  {| resolve := fun _ => Some {| o1 := 127; o2 := 0; o3 := 0; o4 := 1 |};
     http_get := fun _ _ => inl ConnectionFailure;
     http_post := fun _ _ => inr envelope |}.

(** The envelope of an upstream answer 200 whose payload is declared an
    image. *)
Definition image_envelope : HttpReply :=
  {| reply_status := 200;
     reply_headers := [(proxy_status_header, "200");
                       ("content-type", "image/png")];
     reply_body := list_byte_of_string "xxxxxxxx" |}.

End Reader.

(** * Properties *)

(** ** Slices and texts *)

Lemma slice_to_length n s : (String.length (slice_to n s) ≤ n)%nat.
Proof.
  revert s; induction n as [|n IH]; intros [|c s]; simpl; try lia.
  specialize (IH s); lia.
Qed.

Lemma slice_to_short n s :
  (String.length s ≤ n)%nat → slice_to n s = s.
Proof.
  revert s; induction n as [|n IH]; intros [|c s]; simpl; intros Hl;
    try reflexivity; try lia.
  f_equal; apply IH; lia.
Qed.

Lemma slice_to_long n s :
  (n < String.length s)%nat → String.length (slice_to n s) = n.
Proof.
  revert s; induction n as [|n IH]; intros [|c s]; simpl; intros Hl;
    try reflexivity; try lia.
  f_equal; apply IH; lia.
Qed.

Lemma slice_to_changes n s :
  (n < String.length s)%nat → slice_to n s ≠ s.
Proof.
  intros Hl Heq. apply slice_to_long in Hl as Hn. rewrite Heq in Hn. lia.
Qed.

Lemma slice_to_empty n s : slice_to n s = "" → s = "" ∨ n = O.
Proof. destruct n, s; simpl; intros; auto; discriminate. Qed.

Lemma length_chars n c : String.length (chars n c) = n.
Proof. induction n; simpl; congruence. Qed.

Lemma length_append (s t : string) :
  String.length (s ++ t) = (String.length s + String.length t)%nat.
Proof.
  induction s as [|c s IH]; [reflexivity|].
  change (S (String.length (s ++ t)) = S (String.length s + String.length t)).
  by rewrite IH.
Qed.

Lemma length_doubled k s :
  String.length (doubled k s) = (2 ^ k * String.length s)%nat.
Proof.
  induction k as [|k IH]; simpl; [lia|].
  rewrite length_append, IH. lia.
Qed.

(** ** The store *)

Lemma deref_set_heap_insert σ l c :
  deref (set_heap (<[l := c]> (heap σ)) σ) l = c.
Proof. unfold deref, set_heap; simpl. by rewrite lookup_insert_eq. Qed.

Lemma alloc_fresh c σ : heap σ !! (alloc c σ).1 = None.
Proof.
  unfold alloc; simpl. apply not_elem_of_dom. apply is_fresh.
Qed.

Lemma alloc_heap c σ :
  heap (alloc c σ).2 = <[(alloc c σ).1 := c]> (heap σ).
Proof. reflexivity. Qed.

Lemma alloc_logs c σ : logs (alloc c σ).2 = logs σ.
Proof. reflexivity. Qed.

(** [update] touches one object only. *)
Lemma update_at_frame h l ident content σ l' :
  l' ≠ l → heap (update_at h l ident content σ).2 !! l' = heap σ !! l'.
Proof.
  intros Hne. unfold update_at.
  destruct (FeedChecksum_update _ _ _ _) as [changed c]; simpl.
  by rewrite lookup_insert_ne.
Qed.

Lemma update_at_logs h l ident content σ :
  logs (update_at h l ident content σ).2 = logs σ.
Proof.
  unfold update_at. by destruct (FeedChecksum_update _ _ _ _).
Qed.

(** What [update] answers and leaves behind depends on the object only. *)
Lemma update_at_deref h l ident content σ :
  (update_at h l ident content σ).1
    = (FeedChecksum_update h ident content (deref σ l)).1
  ∧ deref (update_at h l ident content σ).2 l
    = (FeedChecksum_update h ident content (deref σ l)).2.
Proof.
  unfold update_at.
  destruct (FeedChecksum_update _ _ _ _) as [changed c]; simpl.
  split; [done|]. apply deref_set_heap_insert.
Qed.

(** After an update the hash stored for the story is the one of its
    content, whatever the answer. *)
Lemma FeedChecksum_update_lookup h ident content c :
  (FeedChecksum_update h ident content c).2 !! ident = Some (h content).
Proof.
  unfold FeedChecksum_update.
  destruct (c !! ident) as [old|] eqn:Hold; [case_decide|]; simpl;
    rewrite ?lookup_insert_eq; congruence.
Qed.

Lemma FeedChecksum_update_other h ident content c k :
  k ≠ ident → (FeedChecksum_update h ident content c).2 !! k = c !! k.
Proof.
  intros Hne. unfold FeedChecksum_update.
  destruct (c !! ident) as [old|]; [case_decide|]; simpl;
    rewrite ?lookup_insert_ne; done.
Qed.

(** The answer of [update]: unchanged exactly when the stored hash is the
    hash of the content. *)
Lemma FeedChecksum_update_answer h ident content c :
  (FeedChecksum_update h ident content c).1 = false
  ↔ c !! ident = Some (h content).
Proof.
  unfold FeedChecksum_update.
  destruct (c !! ident) as [old|]; [case_decide|]; simpl; split;
    intros; try done; congruence.
Qed.

(** ** The filter of new and changed stories *)

Section filter.

Variable X : Externals.

(** [_check_update_storys] reads and writes the parser's own checksum
    object, and nothing else. *)
Lemma check_update_spec self storys σ :
  let out := _check_update_storys X self storys σ in
  let pure := changed_storys (content_hash X) storys (deref σ (_checksum self)) in
  out.1 = pure.1
  ∧ deref out.2 (_checksum self) = pure.2
  ∧ (∀ l, l ≠ _checksum self → heap out.2 !! l = heap σ !! l)
  ∧ logs out.2 = logs σ.
Proof.
  revert σ; induction storys as [|story rest IH]; intros σ; simpl.
  { split_and!; done. }
  pose proof (update_at_deref (content_hash X) (_checksum self)
    (rs_ident story) (py_or (rs_content story) "") σ) as [Hans Hobj].
  pose proof (update_at_frame (content_hash X) (_checksum self)
    (rs_ident story) (py_or (rs_content story) "") σ) as Hfr.
  pose proof (update_at_logs (content_hash X) (_checksum self)
    (rs_ident story) (py_or (rs_content story) "") σ) as Hlog.
  destruct (update_at _ _ _ _ σ) as [changed σ1]; simpl in *.
  destruct (FeedChecksum_update _ _ _ _) as [changed' c1]; simpl in *.
  subst changed' c1.
  specialize (IH σ1) as (IH1 & IH2 & IH3 & IH4).
  destruct (_check_update_storys X self rest σ1) as [upd σ2]; simpl in *.
  destruct (changed_storys _ rest _) as [upd' c2] eqn:Hpure; simpl in *.
  subst upd'. split_and!; [done|done| |congruence].
  intros l Hl. rewrite IH3, Hfr; done.
Qed.

Lemma check_update_retained self storys σ :
  (_check_update_storys X self storys σ).1
  = (changed_storys (content_hash X) storys (deref σ (_checksum self))).1.
Proof. apply check_update_spec. Qed.

Lemma check_update_frame self storys σ l :
  l ≠ _checksum self →
  heap (_check_update_storys X self storys σ).2 !! l = heap σ !! l.
Proof. intros; by apply check_update_spec. Qed.

Lemma check_update_logs self storys σ :
  logs (_check_update_storys X self storys σ).2 = logs σ.
Proof. apply check_update_spec. Qed.

Lemma check_update_deref self storys σ :
  deref (_check_update_storys X self storys σ).2 (_checksum self)
  = (changed_storys (content_hash X) storys (deref σ (_checksum self))).2.
Proof. apply check_update_spec. Qed.

End filter.

Section changed.

Variable h : string → digest.

(** The text whose hash [_check_update_storys] records for a story. *)
Local Abbreviation text story := (py_or (rs_content story) "").

Lemma changed_storys_sublist storys c :
  sublist (changed_storys h storys c).1 storys.
Proof.
  revert c; induction storys as [|s rest IH]; intros c; simpl; [constructor|].
  destruct (FeedChecksum_update h _ _ c) as [changed c1].
  specialize (IH c1). destruct (changed_storys h rest c1) as [upd c2]; simpl in *.
  destruct changed; by constructor.
Qed.

(** A key of the checksum is left alone, or holds the hash of one of the
    stories filed under it. *)
Lemma changed_storys_key storys c k :
  let c' := (changed_storys h storys c).2 in
  (c' !! k = c !! k ∧ k ∉ rs_ident <$> storys)
  ∨ (∃ s, s ∈ storys ∧ rs_ident s = k ∧ c' !! k = Some (h (text s))).
Proof.
  revert c; induction storys as [|s rest IH]; intros c; simpl.
  { left; split; [done|]. apply not_elem_of_nil. }
  pose proof (FeedChecksum_update_lookup h (rs_ident s) (text s) c) as Hsame.
  pose proof (FeedChecksum_update_other h (rs_ident s) (text s) c k) as Hother.
  destruct (FeedChecksum_update h _ _ c) as [changed c1]; simpl in *.
  specialize (IH c1).
  destruct (changed_storys h rest c1) as [upd c2]; simpl in *.
  destruct IH as [[Heq Hnot]|(s' & Hin & Hk & Hs')].
  - destruct (decide (k = rs_ident s)) as [->|Hne].
    + right. exists s. split_and!; [left|done|congruence].
    + left. split; [rewrite Heq; auto|].
      rewrite not_elem_of_cons. done.
  - right. exists s'. split_and!; [by right|done|done].
Qed.

(** With distinct identifiers, every story ends up filed under its own
    hash. *)
Lemma changed_storys_recorded storys c s :
  NoDup (rs_ident <$> storys) → s ∈ storys →
  (changed_storys h storys c).2 !! rs_ident s = Some (h (text s)).
Proof.
  revert c; induction storys as [|s0 rest IH]; intros c Hnd Hin; simpl.
  { by apply elem_of_nil in Hin. }
  rewrite fmap_cons in Hnd. apply NoDup_cons in Hnd as [Hfresh Hnd].
  pose proof (FeedChecksum_update_lookup h (rs_ident s0) (text s0) c) as Hsame.
  destruct (FeedChecksum_update h _ _ c) as [changed c1]; simpl in *.
  specialize (IH c1 Hnd).
  pose proof (changed_storys_key rest c1 (rs_ident s0)) as Hkey.
  destruct (changed_storys h rest c1) as [upd c2]; simpl in *.
  apply elem_of_cons in Hin as [->|Hin]; [|by apply IH].
  destruct Hkey as [[Heq _]|(s' & Hin' & Hk & _)]; [congruence|].
  exfalso. apply Hfresh. rewrite <- Hk. by apply list_elem_of_fmap_2.
Qed.

(** A checksum that already files every story under its hash retains
    nothing and stays as it is. *)
Lemma changed_storys_again storys c :
  (∀ s, s ∈ storys → c !! rs_ident s = Some (h (text s))) →
  changed_storys h storys c = ([], c).
Proof.
  induction storys as [|s rest IH]; intros Hall; simpl; [done|].
  assert (c !! rs_ident s = Some (h (text s))) as Hs by (apply Hall; left).
  unfold FeedChecksum_update. rewrite Hs. rewrite decide_True by done.
  rewrite IH; [done|]. intros s' Hin. apply Hall. by right.
Qed.

(** A checksum that knows none of the identifiers retains every story,
    provided the identifiers are distinct. *)
Lemma changed_storys_fresh storys c :
  NoDup (rs_ident <$> storys) →
  (∀ s, s ∈ storys → c !! rs_ident s = None) →
  (changed_storys h storys c).1 = storys.
Proof.
  revert c; induction storys as [|s rest IH]; intros c Hnd Hnone; simpl; [done|].
  rewrite fmap_cons in Hnd. apply NoDup_cons in Hnd as [Hfresh Hnd].
  assert (c !! rs_ident s = None) as Hs by (apply Hnone; left).
  pose proof (FeedChecksum_update_other h (rs_ident s) (text s) c) as Hother.
  unfold FeedChecksum_update in *. rewrite Hs in *. simpl in *.
  specialize (IH (<[rs_ident s := h (text s)]> c) Hnd).
  destruct (changed_storys h rest _) as [upd c2]; simpl in *.
  f_equal. apply IH. intros s' Hin.
  rewrite Hother; [apply Hnone; by right|].
  intros Heq. apply Hfresh. rewrite <- Heq. by apply list_elem_of_fmap_2.
Qed.

End changed.

(** ** Building the stories *)

Section building.

Variable X : Externals.

(** Processing content logs at most one warning and touches no checksum. *)
Lemma process_content_heap content link σ :
  heap (_process_content X content link σ).2 = heap σ.
Proof. unfold _process_content. by destruct (len _ >=? _)%Z. Qed.

Lemma parse_story_heap story feed_url σ :
  heap (_parse_story X story feed_url σ).2 = heap σ.
Proof.
  unfold _parse_story.
  pose proof (process_content_heap (rs_content story)
    (py_or_opt (validate_url X (normlize_url X
       (Some (py_or (rs_url story) (rs_ident story))) feed_url)) feed_url) σ) as Hh.
  by destruct (_process_content _ _ _ _).
Qed.

Lemma parse_story_ident story feed_url σ :
  ident (_parse_story X story feed_url σ).1 = slice_to 200 (rs_ident story).
Proof. unfold _parse_story. by destruct (_process_content _ _ _ _). Qed.

Lemma parse_story_url story feed_url σ :
  url (_parse_story X story feed_url σ).1
  = validate_url X (normlize_url X
      (Some (py_or (rs_url story) (rs_ident story))) feed_url).
Proof. unfold _parse_story. by destruct (_process_content _ _ _ _). Qed.

Lemma parse_storys_heap update_storys feed_url σ :
  heap (parse_storys X update_storys feed_url σ).2 = heap σ.
Proof.
  revert σ; induction update_storys as [|s rest IH]; intros σ; simpl; [done|].
  pose proof (parse_story_heap s feed_url σ) as Hh.
  destruct (_parse_story X s feed_url σ) as [s' σ1]; simpl in *.
  specialize (IH σ1). destruct (parse_storys X rest feed_url σ1); simpl in *.
  congruence.
Qed.

(** One story is built for each retained one, in order. *)
Lemma parse_storys_lookup update_storys feed_url σ i story :
  update_storys !! i = Some story →
  ∃ σ', (parse_storys X update_storys feed_url σ).1 !! i
        = Some (_parse_story X story feed_url σ').1.
Proof.
  revert σ i; induction update_storys as [|s rest IH]; intros σ i Hi; [done|].
  simpl. destruct (_parse_story X s feed_url σ) as [s' σ1] eqn:Hs.
  specialize (IH σ1).
  destruct (parse_storys X rest feed_url σ1) as [l σ2]; simpl in *.
  destruct i as [|i]; simpl in *.
  - inversion Hi; subst. exists σ. by rewrite Hs.
  - by apply IH.
Qed.

Lemma parse_storys_length update_storys feed_url σ :
  length (parse_storys X update_storys feed_url σ).1 = length update_storys.
Proof.
  revert σ; induction update_storys as [|s rest IH]; intros σ; simpl; [done|].
  destruct (_parse_story X s feed_url σ) as [s' σ1].
  specialize (IH σ1). destruct (parse_storys X rest feed_url σ1); simpl in *.
  congruence.
Qed.

Lemma parse_storys_ident update_storys feed_url σ :
  ident <$> (parse_storys X update_storys feed_url σ).1
  = (λ story, slice_to 200 (rs_ident story)) <$> update_storys.
Proof.
  revert σ; induction update_storys as [|s rest IH]; intros σ; simpl; [done|].
  pose proof (parse_story_ident s feed_url σ) as Hid.
  destruct (_parse_story X s feed_url σ) as [s' σ1]; simpl in *.
  specialize (IH σ1). destruct (parse_storys X rest feed_url σ1); simpl in *.
  f_equal; [exact Hid | exact IH].
Qed.

(** *** The shape of [parse] *)

Lemma parse_answer self raw σ :
  (parse X self raw σ).1
  = let result := {| feed := _parse_feed X (raw_feed raw);
                     storys := parsed X self raw σ;
                     checksum := _checksum self |} in
    if _validate self then _validate_result X result else inr result.
Proof.
  unfold parse, parsed.
  destruct (_check_update_storys X self (raw_storys raw) σ) as [upd σ1].
  destruct (parse_storys X upd _ σ1) as [l σ2]; simpl.
  by destruct (_validate self).
Qed.

Lemma parse_heap self raw σ :
  heap (parse X self raw σ).2
  = heap (_check_update_storys X self (raw_storys raw) σ).2.
Proof.
  unfold parse.
  destruct (_check_update_storys X self (raw_storys raw) σ) as [upd σ1].
  pose proof (parse_storys_heap upd (f_url (_parse_feed X (raw_feed raw))) σ1) as Hh.
  destruct (parse_storys X upd _ σ1) as [l σ2]; simpl in *.
  by destruct (_validate self).
Qed.

Lemma parse_deref self raw σ l :
  deref (parse X self raw σ).2 l
  = deref (_check_update_storys X self (raw_storys raw) σ).2 l.
Proof. unfold deref. by rewrite parse_heap. Qed.

Lemma parsed_ident self raw σ :
  ident <$> parsed X self raw σ
  = (λ story, slice_to 200 (rs_ident story)) <$> retained X self raw σ.
Proof.
  unfold parsed, retained.
  destruct (_check_update_storys X self (raw_storys raw) σ) as [upd σ1]; simpl.
  apply parse_storys_ident.
Qed.

Lemma parsed_length self raw σ :
  length (parsed X self raw σ) = length (retained X self raw σ).
Proof.
  unfold parsed, retained.
  destruct (_check_update_storys X self (raw_storys raw) σ) as [upd σ1]; simpl.
  apply parse_storys_length.
Qed.

Lemma parsed_lookup self raw σ i story :
  retained X self raw σ !! i = Some story →
  ∃ σ', parsed X self raw σ !! i
        = Some (_parse_story X story (rf_url (raw_feed raw)) σ').1.
Proof.
  unfold parsed, retained.
  destruct (_check_update_storys X self (raw_storys raw) σ) as [upd σ1]; simpl.
  apply parse_storys_lookup.
Qed.

End building.

(** ** Validation *)

Section validation.

Variable X : Externals.

(** The length check of a required text. *)
Lemma T_str_required_ok n s :
  s ≠ "" → (String.length s ≤ n)%nat → T_str (Some n) false (Some s) = inr s.
Proof.
  intros Hne Hlen. destruct s as [|c s]; [done|]. simpl in *.
  by rewrite decide_True.
Qed.

Lemma T_str_inr maxlen optional s v :
  T_str maxlen optional (Some s) = inr v → v = s.
Proof.
  destruct s as [|c s]; simpl.
  - destruct optional; congruence.
  - destruct maxlen as [n|]; [case_decide|]; congruence.
Qed.

Lemma T_str_optional_ok n s :
  (String.length s ≤ n)%nat → T_str (Some n) true (Some s) = inr s.
Proof.
  intros Hlen. destruct s as [|c s]; simpl; [done|]. by rewrite decide_True.
Qed.

Lemma T_str_too_long n optional s :
  (n < String.length s)%nat →
  T_str (Some n) optional (Some s) = inl "string length must <= maxlen".
Proof.
  intros Hlen. destruct s as [|c s]; simpl in *; [lia|].
  rewrite decide_False; [done|lia].
Qed.

Lemma T_str_optional_long n s r :
  T_str (Some n) true (Some s) = inl r → (n < String.length s)%nat.
Proof.
  destruct s as [|c s]; simpl; [done|].
  case_decide; [done|]. intros _. simpl in *. lia.
Qed.

Lemma T_str_required_inl n s r :
  T_str (Some n) false (Some s) = inl r →
  (s = "" ∧ r = "required") ∨ (n < String.length s)%nat.
Proof.
  destruct s as [|c s]; simpl.
  - intros [= <-]. by left.
  - case_decide; [done|]. intros _. right. simpl in *. lia.
Qed.

(** A soft-optional URL never fails, and an invalid one becomes absent. *)
Lemma T_url_soft v : ∃ u, T_url X true true v = inr u.
Proof.
  destruct v as [[|c s]|]; simpl; eauto.
  destruct (url_validator X _); eauto.
Qed.

Lemma T_url_soft_invalid s :
  url_validator X s = None → T_url X true true (Some s) = inr None.
Proof. intros Hinv. destruct s as [|c s]; simpl; [done|]. by rewrite Hinv. Qed.

Lemma T_url_absent invalid_to_default : T_url X true invalid_to_default None = inr None.
Proof. done. Qed.

(** One step through a schema: the check at hand either raises, which
    settles the goal, or yields a value to go on with. *)
Ltac next_key :=
  match goal with
  | H : at_key ?k ?r _ = _ |- _ =>
      let v := fresh "v" in
      let E := fresh "E" in
      destruct r as [?reason|v] eqn:E;
      unfold at_key at 1 in H; cbv beta iota in H
  end.

(** What an accepted story keeps of the story that was built. *)
Lemma validate_story_inr s s' :
  validate_story X s = inr s' →
  ident s' = ident s ∧ title s' = title s
  ∧ (String.length (ident s') ≤ 200)%nat
  ∧ (url s = None → url s' = None)
  ∧ content s' = content s
  ∧ T_url X true true (author_url s) = inr (author_url s').
Proof.
  unfold validate_story. intros H.
  repeat (next_key; [discriminate|]).
  inversion H; subst; simpl; clear H.
  apply T_str_inr in E as Hid. apply T_str_inr in E0 as Ht.
  apply T_str_inr in E2 as Hc. subst.
  split_and!; try done.
  - destruct (ident s) as [|c i]; simpl in *; [done|].
    case_decide; [done|discriminate].
  - intros Hu. rewrite Hu in E1. simpl in E1. congruence.
Qed.

(** Where a story can be rejected, and why.  The soft-optional URL keys and
    [content] are not among the places. *)
Lemma validate_story_inl s key reason :
  validate_story X s = inl (key, reason) →
  key ∈ ["ident"; "title"; "url"; "content"; "summary"; "dt_published";
         "dt_updated"; "author_name"]
  ∧ (key = "ident" →
       (ident s = "" ∧ reason = "required") ∨ (200 < String.length (ident s))%nat)
  ∧ (key = "url" → url s ≠ None)
  ∧ (key = "content" → (str_default_maxlen < String.length (content s))%nat).
Proof.
  unfold validate_story. intros H.
  pose proof (T_url_soft (image_url s)) as [? Hi].
  pose proof (T_url_soft (author_url s)) as [? Ha].
  pose proof (T_url_soft (author_avatar_url s)) as [? Hv].
  next_key.
  { inversion H; subst. split_and!; [set_solver| |done|done].
    intros _. by apply T_str_required_inl. }
  next_key. { inversion H; subst. split_and!; [set_solver|done|done|done]. }
  next_key.
  { inversion H; subst. split_and!; [set_solver|done| |done].
    intros _ Hu. rewrite Hu in E1. done. }
  next_key.
  { inversion H; subst. split_and!; [set_solver|done|done|].
    intros _. by eapply T_str_optional_long. }
  next_key. { inversion H; subst. split_and!; [set_solver|done|done|done]. }
  next_key; [congruence|].
  next_key. { inversion H; subst. split_and!; [set_solver|done|done|done]. }
  next_key. { inversion H; subst. split_and!; [set_solver|done|done|done]. }
  next_key. { inversion H; subst. split_and!; [set_solver|done|done|done]. }
  next_key; [congruence|].
  next_key; [congruence|].
  discriminate.
Qed.

(** Where a feed can be rejected. *)
Lemma validate_feed_inl f key reason :
  validate_feed X f = inl (key, reason) →
  key ∈ ["version"; "title"; "url"; "description"; "dt_updated"; "author_name"].
Proof.
  unfold validate_feed. intros H.
  pose proof (T_url_soft (f_home_url f)) as [? Hh].
  pose proof (T_url_soft (f_icon_url f)) as [? Hi].
  pose proof (T_url_soft (f_author_url f)) as [? Ha].
  pose proof (T_url_soft (f_author_avatar_url f)) as [? Hv].
  repeat (next_key; [first [congruence | inversion H; subst; set_solver]|]).
  discriminate.
Qed.

(** The loop over the stories: it accepts them one to one, or stops at the
    first one rejected and reports its index. *)
Lemma validate_storys_inr i l l' :
  validate_storys X i l = inr l' →
  Forall2 (λ s s', validate_story X s = inr s') l l'.
Proof.
  revert i l'; induction l as [|s rest IH]; intros i l'; simpl.
  { intros [= <-]. constructor. }
  destruct (validate_story X s) as [[k r]|s1] eqn:Hs; [done|].
  destruct (validate_storys X (S i) rest) as [e|rest'] eqn:Hrest; [done|].
  intros [= <-]. constructor; [done|]. by eapply IH.
Qed.

Lemma validate_storys_inl i l e :
  validate_storys X i l = inl e →
  ∃ j s, err_index e = Some (i + j)%nat ∧ l !! j = Some s
    ∧ validate_story X s = inl (err_field e, err_reason e)
    ∧ ∀ j' s', (j' < j)%nat → l !! j' = Some s' →
        ∃ v, validate_story X s' = inr v.
Proof.
  revert i; induction l as [|s rest IH]; intros i; simpl; [done|].
  destruct (validate_story X s) as [[k r]|s1] eqn:Hs.
  - intros [= <-]. exists O, s. simpl. split_and!; [f_equal; lia|done|done|].
    intros j' s' Hlt. lia.
  - destruct (validate_storys X (S i) rest) as [e'|rest'] eqn:Hrest; [|done].
    intros [= <-]. destruct (IH _ Hrest) as (j & s' & Hidx & Hj & Hbad & Hbefore).
    exists (S j), s'. split_and!; [rewrite Hidx; f_equal; lia|done|done|].
    intros [|j'] s'' Hlt Hlook; simpl in *.
    + inversion Hlook; subst. eauto.
    + eapply Hbefore; [|done]. lia.
Qed.

Lemma validate_storys_all i l l' :
  Forall2 (λ s s', validate_story X s = inr s') l l' →
  validate_storys X i l = inr l'.
Proof.
  intros Hall. revert i. induction Hall as [|s s' l l' Hs _ IH]; intros i; [done|].
  simpl. by rewrite Hs, IH.
Qed.

Lemma validate_storys_stops i good bad rest key reason :
  Forall (λ s, ∃ s', validate_story X s = inr s') good →
  validate_story X bad = inl (key, reason) →
  validate_storys X i (good ++ bad :: rest)
  = inl {| err_index := Some (i + length good)%nat;
           err_field := key; err_reason := reason |}.
Proof.
  intros Hgood Hbad. revert i.
  induction Hgood as [|s good [s' Hs] _ IH]; intros i; simpl.
  - rewrite Hbad. by rewrite Nat.add_0_r.
  - rewrite Hs, IH. by rewrite Nat.add_succ_r.
Qed.

(** The loop stops at the story at position [i] when it is the first one
    rejected. *)
Lemma validate_storys_at i0 l i s key reason :
  l !! i = Some s →
  validate_story X s = inl (key, reason) →
  (∀ j s', (j < i)%nat → l !! j = Some s' → ∃ v, validate_story X s' = inr v) →
  validate_storys X i0 l
  = inl {| err_index := Some (i0 + i)%nat;
           err_field := key; err_reason := reason |}.
Proof.
  intros Hi Hbad Hbefore.
  rewrite <- (take_drop_middle l i s Hi).
  rewrite (validate_storys_stops i0 (take i l) s (drop (S i) l) key reason);
    [|..|done].
  - rewrite length_take. apply lookup_lt_Some in Hi.
    by rewrite Nat.min_l by lia.
  - apply Forall_forall. intros s' Hin.
    apply list_elem_of_lookup in Hin as [j Hj].
    apply lookup_take_Some in Hj as [Hj Hlt]. by eapply Hbefore.
Qed.

(** A story whose content is over the default bound is rejected, at
    [content] or at a key before it. *)
Lemma validate_story_long_content s :
  (str_default_maxlen < String.length (content s))%nat →
  ∃ key reason, validate_story X s = inl (key, reason).
Proof.
  intros Hlong. unfold validate_story.
  destruct (T_str (Some 200) false (Some (ident s))) as [r|v1]; [by eexists _, _|].
  unfold at_key at 1; cbv beta iota.
  destruct (T_str (Some 200) false (Some (title s))) as [r|v2]; [by eexists _, _|].
  unfold at_key at 1; cbv beta iota.
  destruct (T_url X true false (url s)) as [r|v3]; [by eexists _, _|].
  unfold at_key at 1; cbv beta iota.
  rewrite (T_str_too_long str_default_maxlen true (content s) Hlong).
  by eexists _, _.
Qed.

(** At [content] it is, when the keys before it pass. *)
Lemma validate_story_content_rejected s :
  (∃ v, T_str (Some 200) false (Some (ident s)) = inr v) →
  (∃ v, T_str (Some 200) false (Some (title s)) = inr v) →
  (∃ v, T_url X true false (url s) = inr v) →
  (str_default_maxlen < String.length (content s))%nat →
  validate_story X s = inl ("content", "string length must <= maxlen").
Proof.
  intros [v1 H1] [v2 H2] [v3 H3] Hlong. unfold validate_story.
  rewrite H1. unfold at_key at 1; cbv beta iota.
  rewrite H2. unfold at_key at 1; cbv beta iota.
  rewrite H3. unfold at_key at 1; cbv beta iota.
  by rewrite (T_str_too_long str_default_maxlen true (content s) Hlong).
Qed.

(** One rejected story is enough for the loop to raise. *)
Lemma validate_storys_rejects i l :
  Exists (λ s, ∃ key reason, validate_story X s = inl (key, reason)) l →
  ∃ e, validate_storys X i l = inl e.
Proof.
  intros Hex. revert i. induction Hex as [s l (k & r & Hs)|s l _ IH]; intros i;
    simpl.
  - rewrite Hs. by eexists.
  - destruct (validate_story X s) as [[k r]|s']; [by eexists|].
    destruct (IH (S i)) as [e ->]. by eexists.
Qed.

Lemma validate_result_rejects result :
  Exists (λ s, ∃ key reason, validate_story X s = inl (key, reason))
         (storys result) →
  ∃ e, _validate_result X result = inl e.
Proof.
  intros Hex. unfold _validate_result.
  destruct (validate_feed X (feed result)) as [[k r]|f]; [by eexists|].
  destruct (validate_storys_rejects 0 _ Hex) as [e ->]. by eexists.
Qed.

Lemma validate_result_inr result r :
  _validate_result X result = inr r →
  checksum r = checksum result
  ∧ validate_feed X (feed result) = inr (feed r)
  ∧ Forall2 (λ s s', validate_story X s = inr s') (storys result) (storys r).
Proof.
  unfold _validate_result.
  destruct (validate_feed X (feed result)) as [[k reason]|f] eqn:Hf; [done|].
  destruct (validate_storys X 0 (storys result)) as [e|l] eqn:Hl; [done|].
  intros [= <-]; simpl. split_and!; [done|done|]. by eapply validate_storys_inr.
Qed.

Lemma validate_result_inl result e :
  _validate_result X result = inl e →
  (err_index e = None
   ∧ validate_feed X (feed result) = inl (err_field e, err_reason e))
  ∨ (∃ i s, err_index e = Some i ∧ storys result !! i = Some s
      ∧ validate_story X s = inl (err_field e, err_reason e)
      ∧ ∀ j s', (j < i)%nat → storys result !! j = Some s' →
          ∃ v, validate_story X s' = inr v).
Proof.
  unfold _validate_result.
  destruct (validate_feed X (feed result)) as [[k reason]|f] eqn:Hf.
  { intros [= <-]. by left. }
  destruct (validate_storys X 0 (storys result)) as [e'|l] eqn:Hl; [|done].
  intros [= <-]. right. apply validate_storys_inl in Hl.
  destruct Hl as (j & s & Hidx & ?). exists j, s. by split.
Qed.

End validation.

(** ** The identifier of a story *)

(** A key that is not in a list of keys. *)
Ltac not_a_key H :=
  repeat (apply elem_of_cons in H as [H|H]; [discriminate H|]);
  apply elem_of_nil in H.

Lemma py_or_text s : py_or (Some s) "" = s.
Proof. by destruct s. Qed.

Lemma parsed_ident_length X self raw σ s :
  s ∈ parsed X self raw σ → (String.length (ident s) ≤ 200)%nat.
Proof.
  intros Hin. apply (list_elem_of_fmap_2 ident) in Hin.
  rewrite parsed_ident in Hin. apply list_elem_of_fmap in Hin as (story & -> & _).
  apply slice_to_length.
Qed.

(** C1, as stated, fails.  A feed whose only story has an identifier of 201
    characters is parsed with [validate=True] without any error: the story
    comes back, under the first 200 characters of its identifier. *)
Lemma long_ident_is_accepted :
  let story := a_story (chars 201 "a") "x" in
  let raw := {| raw_feed := a_feed; raw_storys := [story] |} in
  (200 < String.length (rs_ident story))%nat
  ∧ ∃ r, (parse_fresh plain true raw).1 = inr r
      ∧ ident <$> storys r = [chars 200 "a"]
      ∧ chars 200 "a" ≠ rs_ident story.
Proof.
  split; [vm_compute; lia|].
  eexists. split; [vm_compute; reflexivity|].
  split; [vm_compute; reflexivity|].
  intros Heq. apply (f_equal String.length) in Heq.
  vm_compute in Heq. discriminate.
Qed.

(** C1, amended.  With [validate=True], normalization cuts the identifier
    of every retained story to its first 200 characters and leaves an
    identifier of at most 200 characters as it is; the identifier that was
    built passes the check of the schema unless it is empty, and an
    accepted story keeps it; the parse is never aborted for the length of
    an identifier, the only rejection at the key [ident] being the one of
    an empty identifier.  When the feed passes and a story is the first to
    be rejected, the parse is aborted with an error that carries the index
    of that story, the key and the reason; and an error with an index is
    always the rejection of the story at that index. *)
Theorem parse_cuts_long_ident X self raw σ :
  _validate self = true →
  ident <$> parsed X self raw σ
    = (λ story, slice_to 200 (rs_ident story)) <$> retained X self raw σ
  ∧ (∀ story, (String.length (rs_ident story) ≤ 200)%nat →
       slice_to 200 (rs_ident story) = rs_ident story)
  ∧ (∀ r, (parse X self raw σ).1 = inr r →
       ident <$> storys r = ident <$> parsed X self raw σ)
  ∧ (∀ e, (parse X self raw σ).1 = inl e → err_field e = "ident" →
       err_reason e = "required")
  ∧ (∀ e i, (parse X self raw σ).1 = inl e → err_index e = Some i →
       ∃ s, parsed X self raw σ !! i = Some s
         ∧ validate_story X s = inl (err_field e, err_reason e))
  ∧ (∀ s, s ∈ parsed X self raw σ → ident s ≠ "" →
       T_str (Some 200) false (Some (ident s)) = inr (ident s))
  ∧ (∀ f i s key reason,
       validate_feed X (_parse_feed X (raw_feed raw)) = inr f →
       parsed X self raw σ !! i = Some s →
       validate_story X s = inl (key, reason) →
       (∀ j s', (j < i)%nat → parsed X self raw σ !! j = Some s' →
          ∃ v, validate_story X s' = inr v) →
       (parse X self raw σ).1
       = inl {| err_index := Some i; err_field := key; err_reason := reason |}).
Proof.
  intros Hval. rewrite parse_answer, Hval. cbv zeta.
  split_and!; [| | | | | |
    intros f i s key reason Hfeed Hi Hbad Hbefore;
    unfold _validate_result; simpl; rewrite Hfeed;
    by rewrite (validate_storys_at X 0 _ i s key reason Hi Hbad Hbefore)].
  - apply parsed_ident.
  - intros story. apply slice_to_short.
  - intros r Hr. apply validate_result_inr in Hr as (_ & _ & Hall). simpl in Hall.
    induction Hall as [|s s' l l' Hs _ IH]; [done|].
    rewrite !fmap_cons. f_equal; [|done].
    by apply validate_story_inr in Hs as (-> & _).
  - intros e He Hkey.
    apply validate_result_inl in He as [[_ Hfeed]|(i & s & _ & Hi & Hs & _)];
      simpl in *.
    + apply validate_feed_inl in Hfeed. rewrite Hkey in Hfeed.
      by not_a_key Hfeed.
    + apply validate_story_inl in Hs as (_ & Hid & _).
      destruct (Hid Hkey) as [[_ ?]|Hlong]; [done|].
      apply list_elem_of_lookup_2, parsed_ident_length in Hi. lia.
  - intros e i He Hidx.
    apply validate_result_inl in He as [[Hnone _]|(j & s & Hj & Hlook & Hs & _)];
      simpl in *; [congruence|].
    exists s. split; [|done]. congruence.
  - intros s Hin Hne. apply T_str_required_ok; [done|].
    by eapply parsed_ident_length.
Qed.

(** The amended C1 at a feed whose only story has an identifier of 201
    characters, and at a feed whose second story has no title: the first
    is parsed under the cut identifier, the second is aborted with the
    index 1. *)
Lemma parse_cuts_long_ident_witness :
  let self := (FeedParser_init None true empty_state).1 in
  let σ := (FeedParser_init None true empty_state).2 in
  let raw := {| raw_feed := a_feed;
                raw_storys := [a_story (chars 201 "a") "x"] |} in
  let raw' := {| raw_feed := a_feed;
                 raw_storys := [a_story "a" "x";
                                titled (a_story "b" "y") None] |} in
  _validate self = true
  ∧ ident <$> parsed plain self raw σ
    = (λ story, slice_to 200 (rs_ident story)) <$> retained plain self raw σ
  ∧ (parse plain self raw' σ).1
    = inl {| err_index := Some 1%nat; err_field := "title";
             err_reason := "required" |}.
Proof.
  intros self σ raw raw'. split; [reflexivity|]. split.
  - apply (parse_cuts_long_ident plain self raw σ). reflexivity.
  - destruct (parse_cuts_long_ident plain self raw' σ eq_refl)
      as (_ & _ & _ & _ & _ & _ & Habort).
    destruct (parsed plain self raw' σ) as [|s0 [|s1 l]] eqn:Hparsed;
      try (vm_compute in Hparsed; discriminate Hparsed).
    eapply (Habort _ 1%nat s1 "title" "required").
    + vm_compute. reflexivity.
    + reflexivity.
    + vm_compute in Hparsed. inversion Hparsed; subst. reflexivity.
    + intros [|j] s' Hj Hs'; [|lia]. simpl in Hs'. inversion Hs'; subst.
      vm_compute in Hparsed. inversion Hparsed; subst. eexists. reflexivity.
Defined.

(** ** Filtering twice, and filtering with an empty checksum *)

Lemma retained_changed X self raw σ :
  retained X self raw σ
  = (changed_storys (content_hash X) (raw_storys raw) (deref σ (_checksum self))).1.
Proof. apply check_update_retained. Qed.

Lemma parsed_nil X self raw σ :
  retained X self raw σ = [] → parsed X self raw σ = [].
Proof.
  intros Hnil. apply length_zero_iff_nil. by rewrite parsed_length, Hnil.
Qed.

(** C2, as stated, fails on feeds that repeat an identifier.  Two stories
    with one identifier and one content: an empty checksum retains the
    first of them only.  Two stories with one identifier and different
    contents: the second parse on the same checksum retains both again. *)
Lemma repeated_ident_breaks_filter :
  let twice := {| raw_feed := a_feed;
                  raw_storys := [a_story "a" "x"; a_story "a" "x"] |} in
  let turn := {| raw_feed := a_feed;
                 raw_storys := [a_story "a" "x"; a_story "a" "y"] |} in
  let self := (FeedParser_init None false empty_state).1 in
  let σ := (FeedParser_init None false empty_state).2 in
  deref σ (_checksum self) = ∅
  ∧ retained plain self twice σ = [a_story "a" "x"]
  ∧ retained plain self turn (parse plain self turn σ).2 = raw_storys turn.
Proof. split_and!; by vm_compute. Qed.

(** C2, amended.  For a feed whose stories have distinct identifiers:
    once it has been parsed, parsing it again on the checksum that parse
    advanced, by the same parser or through any copy of that checksum,
    retains no story and returns none; and parsing it with an empty
    checksum retains all of its stories, each of which is returned. *)
Theorem filter_twice_and_fresh X self raw σ :
  NoDup (rs_ident <$> raw_storys raw) →
  (∀ self' σ',
     deref σ' (_checksum self') = deref (parse X self raw σ).2 (_checksum self) →
     retained X self' raw σ' = []
     ∧ ∀ r, (parse X self' raw σ').1 = inr r → storys r = [])
  ∧ (retained X self raw (parse X self raw σ).2 = [])
  ∧ (deref σ (_checksum self) = ∅ →
     retained X self raw σ = raw_storys raw
     ∧ ∀ r, (parse X self raw σ).1 = inr r →
         ident <$> storys r
         = (λ story, slice_to 200 (rs_ident story)) <$> raw_storys raw).
Proof.
  intros Hnd.
  assert (∀ self' σ',
     deref σ' (_checksum self') = deref (parse X self raw σ).2 (_checksum self) →
     retained X self' raw σ' = []) as Hagain.
  { intros self' σ' Hsame. rewrite retained_changed, Hsame.
    rewrite parse_deref, check_update_deref.
    rewrite changed_storys_again; [done|].
    intros s Hin. by apply changed_storys_recorded. }
  split_and!.
  - intros self' σ' Hsame. split; [by apply Hagain|].
    intros r Hr. rewrite parse_answer in Hr.
    rewrite (parsed_nil _ _ _ _ (Hagain _ _ Hsame)) in Hr. cbv zeta in Hr.
    destruct (_validate self').
    + apply validate_result_inr in Hr as (_ & _ & Hall). simpl in Hall.
      by inversion Hall.
    + by inversion Hr.
  - by apply Hagain.
  - intros Hempty.
    assert (retained X self raw σ = raw_storys raw) as Hall.
    { rewrite retained_changed, Hempty. apply changed_storys_fresh; [done|].
      intros s _. apply lookup_empty. }
    split; [done|]. intros r Hr. rewrite <- Hall, <- parsed_ident.
    rewrite parse_answer in Hr. cbv zeta in Hr.
    destruct (_validate self).
    + apply validate_result_inr in Hr as (_ & _ & Hok). simpl in Hok.
      induction Hok as [|s s' l l' Hs _ IH]; [done|].
      rewrite !fmap_cons. f_equal; [|done].
      by apply validate_story_inr in Hs as (-> & _).
    + by inversion Hr.
Qed.

(** The amended C2 on a feed of two stories. *)
Lemma filter_twice_and_fresh_witness :
  let raw := {| raw_feed := a_feed;
                raw_storys := [a_story "a" "x"; a_story "b" "x"] |} in
  let self := (FeedParser_init None true empty_state).1 in
  let σ := (FeedParser_init None true empty_state).2 in
  NoDup (rs_ident <$> raw_storys raw)
  ∧ retained plain self raw (parse plain self raw σ).2 = []
  ∧ (deref σ (_checksum self) = ∅ → retained plain self raw σ = raw_storys raw).
Proof.
  intros raw self σ.
  assert (NoDup (rs_ident <$> raw_storys raw)) as Hnd.
  { apply (bool_decide_unpack _). vm_compute. exact I. }
  split; [exact Hnd|].
  destruct (filter_twice_and_fresh plain self raw σ Hnd) as (_ & Htwice & Hfresh).
  split; [exact Htwice|]. intros Hempty. by apply Hfresh.
Defined.

(** ** The key of the checksum and the identifier that is returned *)

(** C10.  The checksum files every story of the feed under its full raw
    identifier, while a returned story carries the first 200 characters of
    it.  So for a story whose raw identifier is longer than 200 characters
    the returned identifier differs from the key of the checksum; and two
    stories whose identifiers differ beyond character 200 only are both
    retained by an empty checksum, under two keys, and come back with one
    and the same identifier. *)
Theorem checksum_key_is_full_ident X self raw σ :
  let σ' := (parse X self raw σ).2 in
  (∀ r, (parse X self raw σ).1 = inr r →
     checksum r = _checksum self
     ∧ ident <$> storys r
       = (λ story, slice_to 200 (rs_ident story)) <$> retained X self raw σ)
  ∧ (∀ story, story ∈ raw_storys raw →
     ∃ story', story' ∈ raw_storys raw ∧ rs_ident story' = rs_ident story
       ∧ deref σ' (_checksum self) !! rs_ident story
         = Some (content_hash X (py_or (rs_content story') "")))
  ∧ (∀ story, (200 < String.length (rs_ident story))%nat →
     String.length (slice_to 200 (rs_ident story)) = 200%nat
     ∧ slice_to 200 (rs_ident story) ≠ rs_ident story)
  ∧ (∀ s1 s2,
     raw_storys raw = [s1; s2] → deref σ (_checksum self) = ∅ →
     rs_ident s1 ≠ rs_ident s2 →
     slice_to 200 (rs_ident s1) = slice_to 200 (rs_ident s2) →
     retained X self raw σ = [s1; s2]
     ∧ deref σ' (_checksum self) !! rs_ident s1
       = Some (content_hash X (py_or (rs_content s1) ""))
     ∧ deref σ' (_checksum self) !! rs_ident s2
       = Some (content_hash X (py_or (rs_content s2) ""))
     ∧ ∀ r, (parse X self raw σ).1 = inr r →
         ident <$> storys r
         = [slice_to 200 (rs_ident s1); slice_to 200 (rs_ident s1)]).
Proof.
  intros σ'.
  assert (∀ r, (parse X self raw σ).1 = inr r →
     checksum r = _checksum self
     ∧ ident <$> storys r
       = (λ story, slice_to 200 (rs_ident story)) <$> retained X self raw σ)
    as Hback.
  { intros r Hr. rewrite <- parsed_ident. rewrite parse_answer in Hr.
    cbv zeta in Hr. destruct (_validate self).
    - apply validate_result_inr in Hr as (Hc & _ & Hok). simpl in *.
      split; [done|].
      induction Hok as [|s s' l l' Hs _ IH]; [done|].
      rewrite !fmap_cons. f_equal; [|done].
      by apply validate_story_inr in Hs as (-> & _).
    - by inversion Hr. }
  subst σ'. split_and!.
  - exact Hback.
  - intros story Hin. rewrite parse_deref, check_update_deref.
    pose proof (changed_storys_key (content_hash X) (raw_storys raw)
      (deref σ (_checksum self)) (rs_ident story)) as [[_ Hnot]|(s' & ? & ? & ?)].
    + exfalso. apply Hnot. by apply list_elem_of_fmap_2.
    + by exists s'.
  - intros story Hlong. split; [by apply slice_to_long|by apply slice_to_changes].
  - intros s1 s2 Hraw Hempty Hne Hcut.
    assert (NoDup (rs_ident <$> raw_storys raw)) as Hnd.
    { rewrite Hraw, !fmap_cons, fmap_nil. apply NoDup_cons.
      split; [|apply NoDup_singleton].
      rewrite not_elem_of_cons. split; [done|apply not_elem_of_nil]. }
    assert (retained X self raw σ = [s1; s2]) as Hall.
    { rewrite retained_changed, Hempty, <- Hraw.
      apply changed_storys_fresh; [done|]. intros s _. apply lookup_empty. }
    split_and!; [done| | |].
    + rewrite parse_deref, check_update_deref.
      apply changed_storys_recorded; [done|]. rewrite Hraw. by left.
    + rewrite parse_deref, check_update_deref.
      apply changed_storys_recorded; [done|]. rewrite Hraw. right; by left.
    + intros r Hr. destruct (Hback r Hr) as [_ ->].
      by rewrite Hall, !fmap_cons, fmap_nil, Hcut.
Qed.

(** C10 on two stories whose identifiers of 201 characters differ in the
    last character. *)
Lemma checksum_key_is_full_ident_witness :
  let s1 := a_story (chars 200 "a" ++ "1") "x" in
  let s2 := a_story (chars 200 "a" ++ "2") "x" in
  let raw := {| raw_feed := a_feed; raw_storys := [s1; s2] |} in
  let self := (FeedParser_init None true empty_state).1 in
  let σ := (FeedParser_init None true empty_state).2 in
  (200 < String.length (rs_ident s1))%nat
  ∧ rs_ident s1 ≠ rs_ident s2
  ∧ retained plain self raw σ = [s1; s2]
  ∧ ∀ r, (parse plain self raw σ).1 = inr r →
      ident <$> storys r
      = [slice_to 200 (rs_ident s1); slice_to 200 (rs_ident s1)].
Proof.
  intros s1 s2 raw self σ.
  assert (rs_ident s1 ≠ rs_ident s2) as Hne by (vm_compute; discriminate).
  split; [vm_compute; lia|]. split; [exact Hne|].
  destruct (checksum_key_is_full_ident plain self raw σ) as (_ & _ & _ & Htwo).
  destruct (Htwo s1 s2 eq_refl eq_refl Hne) as (Hall & _ & _ & Hout).
  { vm_compute. reflexivity. }
  split; [exact Hall | exact Hout].
Defined.

(** ** The checksum object of the caller *)

Section isolation.

Variable X : Externals.

Lemma parse_frame self raw σ l :
  l ≠ _checksum self → heap (parse X self raw σ).2 !! l = heap σ !! l.
Proof. intros Hne. rewrite parse_heap. by apply check_update_frame. Qed.

Lemma parse_checksum self raw σ r :
  (parse X self raw σ).1 = inr r → checksum r = _checksum self.
Proof.
  rewrite parse_answer. cbv zeta. destruct (_validate self).
  - intros Hr. by apply validate_result_inr in Hr as (-> & _).
  - by intros [= <-].
Qed.

(** The stories that are built do not depend on the state. *)
Lemma parse_story_pure story feed_url σ σ' :
  (_parse_story X story feed_url σ).1 = (_parse_story X story feed_url σ').1.
Proof.
  unfold _parse_story, _process_content.
  by destruct (len _ >=? _)%Z.
Qed.

Lemma parse_storys_pure update_storys feed_url σ σ' :
  (parse_storys X update_storys feed_url σ).1
  = (parse_storys X update_storys feed_url σ').1.
Proof.
  revert σ σ'; induction update_storys as [|s rest IH]; intros σ σ'; [done|].
  simpl. pose proof (parse_story_pure s feed_url σ σ') as Hs.
  destruct (_parse_story X s feed_url σ) as [s1 σ1].
  destruct (_parse_story X s feed_url σ') as [s1' σ1']. simpl in Hs; subst.
  specialize (IH σ1 σ1').
  destruct (parse_storys X rest feed_url σ1), (parse_storys X rest feed_url σ1').
  simpl in *. by subst.
Qed.

(** What a parse answers, and the checksum it leaves behind, depend on the
    parser's own checksum object only. *)
Lemma parse_local self raw σ σ' :
  deref σ (_checksum self) = deref σ' (_checksum self) →
  (parse X self raw σ).1 = (parse X self raw σ').1
  ∧ deref (parse X self raw σ).2 (_checksum self)
    = deref (parse X self raw σ').2 (_checksum self).
Proof.
  intros Hsame. split.
  - rewrite !parse_answer. cbv zeta.
    assert (parsed X self raw σ = parsed X self raw σ') as ->; [|done].
    unfold parsed.
    pose proof (check_update_retained X self (raw_storys raw) σ) as H1.
    pose proof (check_update_retained X self (raw_storys raw) σ') as H2.
    rewrite Hsame in H1. rewrite <- H2 in H1.
    destruct (_check_update_storys X self (raw_storys raw) σ) as [u1 σ1].
    destruct (_check_update_storys X self (raw_storys raw) σ') as [u2 σ2].
    simpl in H1; subst. apply parse_storys_pure.
  - by rewrite !parse_deref, !check_update_deref, Hsame.
Qed.

(** A sequence of calls leaves alone every object that is not the
    checksum of one of the parsers called. *)
Lemma parse_all_frame calls σ l :
  (∀ call, call ∈ calls → _checksum call.1 ≠ l) →
  heap (parse_all X calls σ).2 !! l = heap σ !! l.
Proof.
  revert σ; induction calls as [|[q raw] rest IH]; intros σ Hcalls; [done|].
  simpl. pose proof (parse_frame q raw σ l) as Hq.
  destruct (parse X q raw σ) as [a σ1]; simpl in *.
  specialize (IH σ1). destruct (parse_all X rest σ1) as [answers σ2]; simpl in *.
  rewrite IH, Hq; [done| |].
  - intros Heq. by apply (Hcalls (q, raw)); [left|].
  - intros call Hin. apply Hcalls. by right.
Qed.

(** Every result hands back the checksum of the parser that built it. *)
Lemma parse_all_checksum calls σ :
  Forall (λ pa, ∀ r, pa.2 = inr r → checksum r = _checksum pa.1)
         (parse_all X calls σ).1.
Proof.
  revert σ; induction calls as [|[q raw] rest IH]; intros σ; [constructor|].
  simpl. pose proof (parse_checksum q raw σ) as Hq.
  destruct (parse X q raw σ) as [a σ1]; simpl in *.
  specialize (IH σ1). destruct (parse_all X rest σ1) as [answers σ2]; simpl in *.
  constructor; [exact Hq | exact IH].
Qed.

(** The answers a parser gets within a sequence of calls are the answers
    it gets when the calls on parsers with other checksums are left out. *)
Lemma parse_all_isolated p calls σa σb :
  (∀ call, call ∈ calls → call.1 = p ∨ _checksum call.1 ≠ _checksum p) →
  deref σa (_checksum p) = deref σb (_checksum p) →
  of_parser p (parse_all X calls σa).1 = (parse_all X (of_parser p calls) σb).1.
Proof.
  revert σa σb; induction calls as [|[q raw] rest IH]; intros σa σb Hcalls Hsame;
    [done|].
  assert (∀ call, call ∈ rest → call.1 = p ∨ _checksum call.1 ≠ _checksum p)
    as Hrest by (intros call Hin; apply Hcalls; by right).
  unfold of_parser in *. destruct (decide (q = p)) as [->|Hne].
  - rewrite (filter_cons_True _ (p, raw)) by done. simpl.
    destruct (parse_local p raw σa σb Hsame) as [Hans Hobj].
    destruct (parse X p raw σa) as [a σa1], (parse X p raw σb) as [b σb1].
    simpl in *. subst b. specialize (IH σa1 σb1 Hrest Hobj).
    destruct (parse_all X rest σa1) as [l1 σa2].
    destruct (parse_all X (filter _ rest) σb1) as [l2 σb2]. simpl in *.
    rewrite (filter_cons_True _ (p, a)) by done. by f_equal.
  - rewrite (filter_cons_False _ (q, raw)) by done. simpl.
    destruct (Hcalls (q, raw)) as [?|Hother]; [by left|done|]. simpl in Hother.
    pose proof (parse_frame q raw σa (_checksum p)) as Hfr.
    destruct (parse X q raw σa) as [a σa1]; simpl in *.
    assert (deref σa1 (_checksum p) = deref σb (_checksum p)) as Hsame'.
    { unfold deref in *. rewrite Hfr; [done|]. congruence. }
    specialize (IH σa1 σb Hrest Hsame').
    destruct (parse_all X rest σa1) as [l1 σa2]. simpl in *.
    by rewrite (filter_cons_False _ (q, a)) by done.
Qed.

End isolation.

(** The constructor copies: the parser's checksum is a new object that
    holds what the passed-in object holds, and no existing object is
    changed. *)
Lemma init_copies c validate σ :
  is_Some (heap σ !! c) →
  let p := (FeedParser_init (Some c) validate σ).1 in
  let σ1 := (FeedParser_init (Some c) validate σ).2 in
  heap σ !! _checksum p = None
  ∧ _checksum p ≠ c
  ∧ heap σ1 = <[_checksum p := deref σ c]> (heap σ)
  ∧ deref σ1 (_checksum p) = deref σ c.
Proof.
  intros Hlive. unfold FeedParser_init, FeedChecksum_copy. simpl.
  pose proof (alloc_fresh (deref σ c) σ) as Hfresh. simpl in Hfresh.
  split_and!; [done| |done|].
  - intros Heq. rewrite Heq in Hfresh. rewrite Hfresh in Hlive.
    by destruct Hlive.
  - unfold deref at 1. simpl. by rewrite lookup_insert_eq.
Qed.

(** C3.  Two parsers are constructed from one checksum object [c] and the
    caller calls [parse] on them any number of times, in any order.  The
    object [c] is never changed; each parser owns a copy of its own, which
    starts as a snapshot of [c] and is what its results hand back; and the
    answers each parser gives are the ones it gives when the calls on the
    other parser are left out. *)
Theorem passed_checksum_is_never_mutated X c v1 v2 σ calls :
  let p1 := (FeedParser_init (Some c) v1 σ).1 in
  let σ1 := (FeedParser_init (Some c) v1 σ).2 in
  let p2 := (FeedParser_init (Some c) v2 σ1).1 in
  let σ2 := (FeedParser_init (Some c) v2 σ1).2 in
  let out := parse_all X calls σ2 in
  is_Some (heap σ !! c) →
  (∀ call, call ∈ calls → call.1 = p1 ∨ call.1 = p2) →
  heap out.2 !! c = heap σ !! c
  ∧ _checksum p1 ≠ c ∧ _checksum p2 ≠ c ∧ _checksum p1 ≠ _checksum p2
  ∧ deref σ2 (_checksum p1) = deref σ c
  ∧ deref σ2 (_checksum p2) = deref σ c
  ∧ Forall (λ pa, ∀ r, pa.2 = inr r → checksum r = _checksum pa.1) out.1
  ∧ of_parser p1 out.1 = (parse_all X (of_parser p1 calls) σ2).1
  ∧ of_parser p2 out.1 = (parse_all X (of_parser p2 calls) σ2).1.
Proof.
  intros p1 σ1 p2 σ2 out Hlive Hcalls.
  destruct (init_copies c v1 σ Hlive) as (Hnew1 & Hne1 & Hheap1 & Hsnap1).
  fold p1 σ1 in Hnew1, Hne1, Hheap1, Hsnap1.
  assert (is_Some (heap σ1 !! c)) as Hlive1.
  { rewrite Hheap1, lookup_insert_ne; done. }
  destruct (init_copies c v2 σ1 Hlive1) as (Hnew2 & Hne2 & Hheap2 & Hsnap2).
  fold p2 σ2 in Hnew2, Hne2, Hheap2, Hsnap2.
  assert (_checksum p1 ≠ _checksum p2) as Hne12.
  { intros Heq. rewrite <- Heq, Hheap1, lookup_insert_eq in Hnew2. done. }
  assert (deref σ1 c = deref σ c) as Hc1.
  { unfold deref. rewrite Hheap1, lookup_insert_ne; done. }
  split_and!; try done.
  - subst out. rewrite parse_all_frame.
    + rewrite Hheap2, lookup_insert_ne, Hheap1, lookup_insert_ne; done.
    + intros call Hin. destruct (Hcalls call Hin) as [-> | ->]; done.
  - rewrite <- Hsnap1. unfold deref. rewrite Hheap2, lookup_insert_ne; done.
  - by rewrite Hsnap2.
  - apply parse_all_checksum.
  - apply parse_all_isolated; [|done].
    intros call Hin. destruct (Hcalls call Hin) as [-> | ->]; [by left|right].
    intros Heq. by apply Hne12.
  - apply parse_all_isolated; [|done].
    intros call Hin. destruct (Hcalls call Hin) as [-> | ->]; [by right|by left].
Qed.

(** C3 on a caller that holds a checksum which knows one story, and parses
    one feed three times over two parsers made from it. *)
Lemma passed_checksum_is_never_mutated_witness :
  let c := 0%nat in
  let σ := {| heap := {[c := {["a" := 7%N]}]}; logs := [] |} in
  let p1 := (FeedParser_init (Some c) true σ).1 in
  let σ1 := (FeedParser_init (Some c) true σ).2 in
  let p2 := (FeedParser_init (Some c) false σ1).1 in
  let σ2 := (FeedParser_init (Some c) false σ1).2 in
  let raw := {| raw_feed := a_feed;
                raw_storys := [a_story "a" "x"; a_story "b" "y"] |} in
  let calls := [(p1, raw); (p2, raw); (p1, raw)] in
  let out := parse_all plain calls σ2 in
  is_Some (heap σ !! c)
  ∧ heap out.2 !! c = heap σ !! c
  ∧ of_parser p1 out.1 = (parse_all plain (of_parser p1 calls) σ2).1.
Proof.
  intros c σ p1 σ1 p2 σ2 raw calls out.
  assert (is_Some (heap σ !! c)) as Hlive by (vm_compute; eauto).
  split; [exact Hlive|].
  destruct (passed_checksum_is_never_mutated plain c true false σ calls Hlive)
    as (Hsame & _ & _ & _ & _ & _ & _ & Hp1 & _).
  { intros call Hin. subst calls.
    repeat (apply elem_of_cons in Hin as [->|Hin]; [simpl; auto|]).
    by apply elem_of_nil in Hin. }
  split; [exact Hsame | exact Hp1].
Defined.

(** ** Oversized content *)

Lemma parse_story_content X story feed_url σ :
  content (_parse_story X story feed_url σ).1
  = (_process_content X (rs_content story)
       (py_or_opt (validate_url X (normlize_url X
          (Some (py_or (rs_url story) (rs_ident story))) feed_url)) feed_url) σ).1.
Proof. unfold _parse_story. by destruct (_process_content _ _ _ _). Qed.

Lemma process_content_downgrade X content link σ :
  (1024 * 1024 ≤ len (story_html_clean X content))%Z →
  (_process_content X content link σ).1
  = process_story_links X
      (story_html_to_text X (Some (story_html_clean X content))) link.
Proof.
  intros Hbig. unfold _process_content.
  assert ((len (story_html_clean X content) >=? 1024 * 1024)%Z = true) as ->
    by lia. done.
Qed.

Lemma length_is_len s n : (n < String.length s)%nat → (Z.of_nat n < len s)%Z.
Proof. unfold len. lia. Qed.

Lemma default_maxlen_is_ceiling : Z.of_nat str_default_maxlen = (1024 * 1024)%Z.
Proof. unfold str_default_maxlen. by rewrite Nat2Z.inj_mul. Qed.

(** A story of the plain instance whose content is a long plain text: the
    text stays what it is, and validation stops at [content]. *)
Lemma plain_long_text_aborts (text : string) :
  (str_default_maxlen < String.length text)%nat →
  let raw := {| raw_feed := a_feed; raw_storys := [a_story "a" text] |} in
  let self := (FeedParser_init None true empty_state).1 in
  let σ := (FeedParser_init None true empty_state).2 in
  (parse plain self raw σ).1
  = inl {| err_index := Some 0%nat; err_field := "content";
           err_reason := "string length must <= maxlen" |}.
Proof.
  intros Hlong raw self σ.
  assert (retained plain self raw σ = [a_story "a" text]) as Hkept.
  { rewrite retained_changed.
    assert (deref σ (_checksum self) = ∅) as -> by (by vm_compute).
    apply (changed_storys_fresh (content_hash plain) [a_story "a" text]).
    - apply NoDup_singleton.
    - intros s _. apply lookup_empty. }
  destruct (parsed_lookup plain self raw σ 0 (a_story "a" text)) as [σ' Hbuilt];
    [by rewrite Hkept|].
  assert (parsed plain self raw σ
          = [(_parse_story plain (a_story "a" text) (rf_url a_feed) σ').1])
    as Hparsed.
  { pose proof (parsed_length plain self raw σ) as Hlen. rewrite Hkept in Hlen.
    destruct (parsed plain self raw σ) as [|s [|s' l]]; simpl in *; try done.
    by inversion Hbuilt. }
  set (built := (_parse_story plain (a_story "a" text) (rf_url a_feed) σ').1)
    in *.
  assert (validate_story plain built
          = inl ("content", "string length must <= maxlen")) as Hbad.
  { apply validate_story_content_rejected.
    - subst built. rewrite parse_story_ident. by eexists.
    - subst built.
      destruct (_parse_story plain (a_story "a" text) (rf_url a_feed) σ') as [s σ'']
        eqn:Hs.
      unfold _parse_story in Hs.
      destruct (_process_content _ _ _ _) in Hs. inversion Hs; subst; simpl.
      by eexists.
    - subst built. rewrite parse_story_url. by eexists.
    - subst built. rewrite parse_story_content.
      assert (story_html_clean plain (rs_content (a_story "a" text)) = text)
        as Hclean by apply py_or_text.
      rewrite process_content_downgrade; rewrite Hclean.
      + by rewrite (py_or_text text : story_html_to_text plain (Some text) = text).
      + rewrite <- default_maxlen_is_ceiling.
        apply length_is_len in Hlong. lia. }
  rewrite parse_answer. cbv zeta.
  change (_validate self) with true. cbv iota.
  unfold _validate_result. cbn [feed storys]. rewrite Hparsed.
  assert (∃ f, validate_feed plain (_parse_feed plain (raw_feed raw)) = inr f)
    as [f ->] by (eexists; vm_compute; reflexivity).
  cbn [validate_storys]. by rewrite Hbad.
Qed.




(** ** Invalid URLs *)

Lemma py_or_blank a b : truthy a = false → py_or a b = b.
Proof. by destruct a as [[|c s]|]. Qed.

Lemma py_or_given a b : truthy a = true → Some (py_or a b) = a.
Proof. by destruct a as [[|c s]|]. Qed.



(** ** The reader *)

Section reader_properties.

Import Reader.

Variable classify : option string → bytes → bool * option string.
Variable detect : option string → bytes → string.
Variable declared_charset : option string → option string.
Variable user_agent : string.

Local Abbreviation the_read := (read classify detect declared_charset user_agent).
Local Abbreviation the_direct :=
  (direct classify detect declared_charset user_agent).
Local Abbreviation blocking_read :=
  (FeedReader_read classify detect declared_charset user_agent).
Local Abbreviation blocking_trace :=
  (FeedReader_trace classify detect declared_charset user_agent).
Local Abbreviation the_resume :=
  (resume classify detect declared_charset user_agent).
Local Abbreviation the_loop :=
  (run_until_complete classify detect declared_charset user_agent).
Local Abbreviation the_gather :=
  (gather classify detect declared_charset user_agent).

(** *** Running a read in either mode *)

(** Three resumptions complete the coroutine of a read, with the response
    of the blocking read. *)
Lemma resume_thrice net u o :
  Nat.iter 3 (the_resume net) (Started u o)
  = Completed (blocking_read net u o).
Proof.
  unfold FeedReader_read, read, relay, guarded, direct. simpl.
  destruct (use_proxy o); [destruct (proxy_url o) as [proxy|]|]; simpl.
  - destruct (http_post net proxy _) as [e|reply]; reflexivity.
  - destruct (allow_private_address o); simpl.
    + destruct (http_get net u (request_headers user_agent)) as [e|reply]; reflexivity.
    + destruct (resolve net u) as [a|]; simpl; [|reflexivity].
      destruct (is_private a); simpl; [reflexivity|].
      destruct (http_get net u (request_headers user_agent)) as [e|reply]; reflexivity.
  - destruct (allow_private_address o); simpl.
    + destruct (http_get net u (request_headers user_agent)) as [e|reply]; reflexivity.
    + destruct (resolve net u) as [a|]; simpl; [|reflexivity].
      destruct (is_private a); simpl; [reflexivity|].
      destruct (http_get net u (request_headers user_agent)) as [e|reply]; reflexivity.
Qed.

Lemma loop_completed net fuel r : the_loop fuel net (Completed r) = Some (r, []).
Proof. by destruct fuel. Qed.

(** The loop on one coroutine: the response and the events, in order,
    of the blocking read. *)
Lemma loop_is_blocking net fuel u o :
  the_loop (S (S (S fuel))) net (Started u o)
  = Some (run_blocking net (the_read u o)).
Proof.
  unfold read, relay, guarded, direct.
  cbn [run_until_complete resume awaited option_list].
  destruct (use_proxy o); [destruct (proxy_url o) as [proxy|]|];
    try destruct (allow_private_address o);
    cbn [run_until_complete resume awaited option_list run_blocking answer];
    try (destruct (resolve net u) as [a|];
         [destruct (is_private a)|];
         cbn [run_until_complete resume awaited option_list run_blocking answer]);
    try destruct (http_post net proxy _) as [e|reply];
    try destruct (http_get net u _) as [e|reply];
    cbn [run_until_complete resume awaited option_list run_blocking answer];
    rewrite ?loop_completed; reflexivity.
Qed.

Lemma resume_completed net n r :
  Nat.iter n (the_resume net) (Completed r) = Completed r.
Proof. induction n as [|n IH]; simpl; [done|]. by rewrite IH. Qed.

(** The loop on a pool: when [n] resumptions complete each coroutine, the
    loop returns the responses they complete with. *)
Lemma gather_completes net n fuel pool results :
  (n ≤ fuel)%nat →
  Forall2 (λ c r, Nat.iter n (the_resume net) c = Completed r) pool results →
  the_gather fuel net pool = Some results.
Proof.
  revert fuel pool results; induction n as [|n IH];
    intros fuel pool results Hfuel Hall.
  - assert (mapM completed pool = Some results) as Hdone.
    { apply mapM_Some. eapply Forall2_impl; [exact Hall|].
      intros c r Hc. simpl in Hc. by subst. }
    destruct fuel; simpl; by rewrite Hdone.
  - destruct fuel as [|fuel]; [lia|]. simpl.
    destruct (mapM completed pool) as [early|] eqn:Hres.
    + f_equal. apply mapM_Some in Hres. revert results Hall.
      induction Hres as [|c r pool early Hc _ IHl]; intros results Hall.
      * by inversion Hall.
      * inversion Hall as [|? r' ? results' Hc' Hrest]; subst.
        destruct c; try discriminate Hc. simpl in Hc. inversion Hc; subst.
        rewrite resume_completed in Hc'. inversion Hc'; subst.
        f_equal. by apply IHl.
    + apply IH; [lia|]. apply Forall2_fmap_l.
      eapply Forall2_impl; [exact Hall|]. intros c r Hc.
      unfold compose. cbv beta in *. by rewrite Nat.iter_succ_r in Hc.
Qed.

(** *** The address guard *)

(** C4, amended.  On a direct fetch, one that is not handed to the relay,
    of a URL that resolves to a private or loopback address: without
    [allow_private_address] the answer is [PRIVATE_ADDRESS_ERROR] with
    empty content, and the resolution of the host is the only event that
    took place, no request was sent; with [allow_private_address] the
    request is sent and the answer is the one the fetch gives for the
    reply to it. *)
Theorem private_address_is_rejected net u o a :
  use_proxy o = false ∨ proxy_url o = None →
  resolve net u = Some a →
  is_private a = true →
  (allow_private_address o = false →
     status (blocking_read net u o) = PRIVATE_ADDRESS_ERROR
     ∧ content (blocking_read net u o) = []
     ∧ blocking_trace net u o = [existT _ (Resolve u)]
     ∧ Forall (λ io, is_request io = false) (blocking_trace net u o))
  ∧ (allow_private_address o = true →
     blocking_read net u o = (run_blocking net (the_direct o u)).1
     ∧ blocking_trace net u o
       = [existT _ (Get u (request_headers user_agent))]
     ∧ status (blocking_read net u o) ≠ PRIVATE_ADDRESS_ERROR).
Proof.
  intros Hdirect Hresolve Hprivate.
  assert (the_read u o = guarded o u (the_direct o u)) as Hread.
  { unfold read. destruct Hdirect as [-> | ->]; [done|].
    by destruct (use_proxy o). }
  unfold FeedReader_read, FeedReader_trace. rewrite Hread. unfold guarded.
  split; intros ->; simpl.
  - rewrite Hresolve, Hprivate. simpl. split_and!; try done.
    by repeat constructor.
  - destruct (http_get net u _) as [e|reply]; simpl; [done|].
    split_and!; [done|done|]. unfold finish.
    by destruct (_ && _).
Qed.

(** *** Status codes *)

(** C5, amended.  On a direct fetch that the address guard lets through
    and whose payload the content-type guard lets through, whatever status code the
    upstream answers with, standard or not, is the status of the response,
    and the body of the answer is its content, byte for byte. *)
Theorem status_and_body_pass_through net u o code headers body :
  use_proxy o = false ∨ proxy_url o = None →
  allow_private_address o = true
    ∨ (∃ a, resolve net u = Some a ∧ is_private a = false) →
  allow_non_webpage o = true
    ∨ (classify (header "content-type" headers) body).1 = true →
  http_get net u (request_headers user_agent)
    = inr {| reply_status := code; reply_headers := headers;
             reply_body := body |} →
  status (blocking_read net u o) = HTTP code
  ∧ content (blocking_read net u o) = body.
Proof.
  intros Hdirect Hguard Htype Hreply.
  assert (the_read u o = guarded o u (the_direct o u)) as Hread.
  { unfold read. destruct Hdirect as [-> | ->]; [done|].
    by destruct (use_proxy o). }
  assert ((run_blocking net (the_direct o u)).1
          = enrich classify detect declared_charset
              (header "content-type" headers) (response (HTTP code) u body))
    as Hgo.
  { simpl. rewrite Hreply. simpl. unfold finish. simpl.
    destruct Htype as [-> | ->]; [|done]. by rewrite andb_false_r. }
  unfold FeedReader_read. rewrite Hread. unfold guarded.
  destruct Hguard as [-> | (a & Hresolve & Hpublic)].
  - by rewrite Hgo.
  - destruct (allow_private_address o); [by rewrite Hgo|].
    simpl. rewrite Hresolve, Hpublic.
    change (run_blocking net (the_direct o u)).1 with
      (let '(r, trace) := run_blocking net (the_direct o u) in r) in Hgo.
    destruct (run_blocking net (the_direct o u)) as [r trace]. simpl.
    by rewrite Hgo.
Qed.

(** *** The relay *)

Lemma error_marker_is_not_a_status : parse_status "ERROR" = None.
Proof. reflexivity. Qed.

(** C6, amended.  On a fetch through the relay that the relay answers:
    when the status header carries the marker [ERROR], the response is
    [RSS_PROXY_ERROR] with empty content, which is no HTTP status; when
    it carries a numeric status and the content-type guard lets the
    relayed payload through, the response has exactly that status and the
    body of the relay's answer as content; and when the guard does not,
    the response is [CONTENT_TYPE_NOT_SUPPORT_ERROR] with empty content. *)
Theorem relay_outcome net u o proxy reply :
  use_proxy o = true →
  proxy_url o = Some proxy →
  http_post net proxy
    (relay_request u (request_headers user_agent) (proxy_token o))
    = inr reply →
  let supported :=
    (classify (header "content-type" (reply_headers reply))
       (reply_body reply)).1 in
  (header proxy_status_header (reply_headers reply) = Some "ERROR" →
     status (blocking_read net u o) = RSS_PROXY_ERROR
     ∧ content (blocking_read net u o) = []
     ∧ ∀ code, status (blocking_read net u o) ≠ HTTP code)
  ∧ (∀ v code,
       header proxy_status_header (reply_headers reply) = Some v →
       parse_status v = Some code →
       (allow_non_webpage o = true ∨ supported = true →
          status (blocking_read net u o) = HTTP code
          ∧ content (blocking_read net u o) = reply_body reply)
       ∧ (allow_non_webpage o = false → supported = false →
          status (blocking_read net u o) = CONTENT_TYPE_NOT_SUPPORT_ERROR
          ∧ content (blocking_read net u o) = [])).
Proof.
  intros Hproxy Hurl Hreply supported.
  unfold FeedReader_read, read. rewrite Hproxy, Hurl. simpl.
  rewrite Hreply. simpl. unfold decode_envelope. split.
  - intros ->. simpl. split_and!; done.
  - intros v code -> Hcode.
    destruct (String.eqb v "ERROR") eqn:Hv.
    { apply String.eqb_eq in Hv. subst v. done. }
    rewrite Hcode. unfold finish. simpl. fold supported. split.
    + intros [-> | ->]; [by rewrite andb_false_r|done].
    + by intros -> ->.
Qed.

(** *** The two readers *)


End reader_properties.

(** *** The reader against the local server *)

(** C4, as stated, fails on a fetch through the relay.  The URL resolves
    to the loopback address and private addresses are not allowed, yet the
    fetch is handed to the relay: a request is sent, and the response
    carries the status the relay reports. *)
Lemma relayed_fetch_skips_address_guard :
  let net := Reader.local_server (Reader.status_reply 600 "600") "404" in
  let u := "http://localhost/private-address" in
  let o := Reader.options true false false in
  (∃ a, Reader.resolve net u = Some a ∧ Reader.is_private a = true)
  ∧ Reader.allow_private_address o = false
  ∧ Reader.status (Reader.local_read net u o) = Reader.HTTP 404
  ∧ Exists (λ io, Reader.is_request io = true) (Reader.local_trace net u o).
Proof.
  split; [eexists; split; reflexivity|].
  split; [reflexivity|]. split; [reflexivity|].
  apply Exists_cons_hd. reflexivity.
Qed.

(** The amended C4 at the test [test_read_private_addres]: default
    options, a server on the loopback address. *)
Lemma private_address_is_rejected_witness :
  let net := Reader.local_server (Reader.status_reply 600 "600") "404" in
  let u := "http://localhost/private-address" in
  let o := Reader.options false false false in
  let a := {| Reader.o1 := 127; Reader.o2 := 0; Reader.o3 := 0; Reader.o4 := 1 |} in
  Reader.resolve net u = Some a
  ∧ Reader.is_private a = true
  ∧ Reader.status (Reader.local_read net u o) = Reader.PRIVATE_ADDRESS_ERROR
  ∧ Reader.local_trace net u o = [existT _ (Reader.Resolve u)].
Proof.
  intros net u o a. split; [reflexivity|]. split; [reflexivity|].
  destruct (private_address_is_rejected Reader.sniff Reader.utf8
    Reader.no_charset Reader.agent net u o a) as [Hreject _];
    [left; reflexivity|reflexivity|reflexivity|].
  destruct (Hreject eq_refl) as (Hstatus & _ & Htrace & _).
  split; [exact Hstatus | exact Htrace].
Defined.

(** C5, as stated, fails on a payload of an unsupported type.  As in the
    test [test_read_non_webpage], the upstream answers with status 200 and
    eight bytes declared [image/png]; the response carries
    [CONTENT_TYPE_NOT_SUPPORT_ERROR] and no content. *)
Lemma unsupported_type_hides_status :
  let net := Reader.local_server Reader.image_reply "404" in
  let u := "http://localhost/non-webpage" in
  let o := Reader.options false true false in
  Reader.http_get net u (Reader.request_headers Reader.agent)
    = inr Reader.image_reply
  ∧ Reader.reply_status Reader.image_reply = 200%Z
  ∧ Reader.status (Reader.local_read net u o)
    = Reader.CONTENT_TYPE_NOT_SUPPORT_ERROR
  ∧ Reader.content (Reader.local_read net u o) = []
  ∧ Reader.reply_body Reader.image_reply ≠ [].
Proof. split_and!; try reflexivity. discriminate. Qed.

(** The amended C5 at the test [test_read_status] with the status 600. *)
Lemma status_and_body_pass_through_witness :
  let net := Reader.local_server (Reader.status_reply 600 "600") "404" in
  let u := "http://localhost/status" in
  let o := Reader.options false true true in
  Reader.status (Reader.local_read net u o) = Reader.HTTP 600
  ∧ Reader.content (Reader.local_read net u o) = list_byte_of_string "600".
Proof.
  intros net u o.
  apply (status_and_body_pass_through Reader.sniff Reader.utf8
    Reader.no_charset Reader.agent net u o 600
    [("content-type", "text/html")] (list_byte_of_string "600")).
  - left; reflexivity.
  - left; reflexivity.
  - left; reflexivity.
  - reflexivity.
Defined.

(** C6, as stated, fails on a relayed payload of an unsupported type.
    The relay reports the numeric status 200 and passes on eight bytes
    declared [image/png]; non-webpages are not allowed, and the response
    carries [CONTENT_TYPE_NOT_SUPPORT_ERROR] and no content. *)
Lemma relayed_unsupported_type_hides_status :
  let net := Reader.relay_server Reader.image_envelope in
  let u := "http://localhost/not-proxy" in
  let o := Reader.options true true false in
  Reader.header Reader.proxy_status_header
    (Reader.reply_headers Reader.image_envelope) = Some "200"
  ∧ Reader.parse_status "200" = Some 200%Z
  ∧ Reader.status (Reader.local_read net u o)
    = Reader.CONTENT_TYPE_NOT_SUPPORT_ERROR
  ∧ Reader.content (Reader.local_read net u o) = []
  ∧ Reader.reply_body Reader.image_envelope ≠ [].
Proof. split_and!; try reflexivity. discriminate. Qed.

(** The amended C6 at the tests [test_read_rss_proxy_error] with the
    marker and [test_read_rss_proxy] with the status 404. *)
Lemma relay_outcome_witness :
  let failed := Reader.local_server (Reader.status_reply 600 "600") "ERROR" in
  let relayed := Reader.local_server (Reader.status_reply 600 "600") "404" in
  let u := "http://localhost/not-proxy" in
  let o := Reader.options true true false in
  Reader.status (Reader.local_read failed u o) = Reader.RSS_PROXY_ERROR
  ∧ Reader.content (Reader.local_read failed u o) = []
  ∧ Reader.status (Reader.local_read relayed u o) = Reader.HTTP 404
  ∧ Reader.content (Reader.local_read relayed u o) = list_byte_of_string "404".
Proof.
  intros failed relayed u o.
  destruct (relay_outcome Reader.sniff Reader.utf8 Reader.no_charset
    Reader.agent failed u o
    "http://localhost/rss-proxy" (Reader.relay_reply "ERROR" "404")
    eq_refl eq_refl eq_refl) as [Herror _].
  destruct (Herror eq_refl) as (Hstatus & Hcontent & _).
  destruct (relay_outcome Reader.sniff Reader.utf8 Reader.no_charset
    Reader.agent relayed u o
    "http://localhost/rss-proxy" (Reader.relay_reply "404" "404")
    eq_refl eq_refl eq_refl) as [_ Hcode].
  destruct (Hcode "404" 404%Z eq_refl eq_refl) as [Hpass _].
  destruct (Hpass (or_intror eq_refl)) as (Hstatus' & Hcontent').
  split_and!; assumption.
Defined.


(** * Further properties of the parser *)

Section rejections.

Variable X : Externals.

Ltac this_key :=
  match goal with
  | H : at_key ?k ?r _ = _ |- _ =>
      let v := fresh "v" in
      let E := fresh "E" in
      destruct r as [?reason|v] eqn:E;
      unfold at_key at 1 in H; cbv beta iota in H
  end.

Lemma T_str_optional_inl n s r :
  T_str (Some n) true (Some s) = inl r → (n < String.length s)%nat.
Proof.
  destruct s as [|c s]; simpl; [done|].
  case_decide; [done|]. intros _. simpl in *. lia.
Qed.

Lemma T_str_bounded_inr n optional v s :
  T_str (Some n) optional v = inr s → (String.length s ≤ n)%nat.
Proof.
  destruct v as [[|c t]|]; simpl.
  - destruct optional; [intros [= <-]; simpl; lia|done].
  - case_decide; [|done]. by intros [= <-].
  - destruct optional; [intros [= <-]; simpl; lia|done].
Qed.

Lemma T_str_required_inr n v s :
  T_str n false v = inr s → s ≠ "" ∧ v = Some s.
Proof.
  destruct v as [[|c t]|]; simpl; try done.
  destruct n as [n|]; [case_decide|]; try done; by intros [= <-].
Qed.

Lemma T_url_inl optional soft v r :
  T_url X optional soft v = inl r →
  (truthy v = false ∧ optional = false ∧ r = "required")
  ∨ (∃ u, v = Some u ∧ u ≠ "" ∧ url_validator X u = None ∧ soft = false
       ∧ r = "invalid url").
Proof.
  destruct v as [[|c u]|]; simpl.
  - destruct optional; [done|]. intros [= <-]. by left.
  - destruct (url_validator X _) eqn:Hu; [done|].
    destruct soft; [done|]. intros [= <-]. right. by eexists.
  - destruct optional; [done|]. intros [= <-]. by left.
Qed.

Lemma T_url_required_inr soft v u :
  T_url X false soft v = inr u → soft = false → is_Some u.
Proof.
  destruct v as [[|c t]|]; simpl; try done.
  destruct (url_validator X _); [intros [= <-]; eauto|].
  destruct soft; [|done]. by intros _ [=].
Qed.

Lemma T_datetime_inl v r :
  T_datetime X v = inl r →
  ∃ s, v = Some (TimeString s) ∧ s ≠ "" ∧ parse_datetime X s = None.
Proof.
  destruct v as [[t|[|c s]]|]; simpl; try done.
  destruct (parse_datetime X _) eqn:Hp; [done|]. intros _. by eexists.
Qed.

(** Every way in which the schema can reject a story. *)
Lemma validate_story_causes s key reason :
  validate_story X s = inl (key, reason) →
  (key = "ident"
     ∧ ((ident s = "" ∧ reason = "required") ∨ (200 < String.length (ident s))%nat))
  ∨ (key = "title"
     ∧ ((title s = "" ∧ reason = "required") ∨ (200 < String.length (title s))%nat))
  ∨ (key = "url" ∧ ∃ u, url s = Some u ∧ u ≠ "" ∧ url_validator X u = None)
  ∨ (key = "content" ∧ (str_default_maxlen < String.length (content s))%nat)
  ∨ (key = "summary" ∧ (300 < String.length (summary s))%nat)
  ∨ (key = "dt_published" ∧ ∃ t, dt_published s = Some (TimeString t)
       ∧ t ≠ "" ∧ parse_datetime X t = None)
  ∨ (key = "dt_updated" ∧ ∃ t, dt_updated s = Some (TimeString t)
       ∧ t ≠ "" ∧ parse_datetime X t = None)
  ∨ (key = "author_name" ∧ (100 < String.length (author_name s))%nat).
Proof.
  unfold validate_story. intros H.
  pose proof (T_url_soft X (image_url s)) as [? Hi].
  pose proof (T_url_soft X (author_url s)) as [? Ha].
  pose proof (T_url_soft X (author_avatar_url s)) as [? Hv].
  this_key.
  { inversion H; subst. left. split; [done|]. by apply T_str_required_inl. }
  this_key.
  { inversion H; subst. right; left. split; [done|]. by apply T_str_required_inl. }
  this_key.
  { inversion H; subst. do 2 right; left. split; [done|].
    apply T_url_inl in E1 as [(_ & ? & _)|(u & ? & ? & ? & _)]; [done|]. eauto. }
  this_key.
  { inversion H; subst. do 3 right; left. split; [done|].
    by eapply T_str_optional_inl. }
  this_key.
  { inversion H; subst. do 4 right; left. split; [done|].
    by eapply T_str_optional_inl. }
  this_key; [congruence|].
  this_key.
  { inversion H; subst. do 5 right; left. split; [done|].
    by eapply T_datetime_inl. }
  this_key.
  { inversion H; subst. do 6 right; left. split; [done|].
    by eapply T_datetime_inl. }
  this_key.
  { inversion H; subst. do 7 right. split; [done|].
    by eapply T_str_optional_inl. }
  this_key; [congruence|].
  this_key; [congruence|].
  discriminate.
Qed.

(** Every way in which the schema can reject a feed. *)
Lemma validate_feed_causes f key reason :
  validate_feed X f = inl (key, reason) →
  (key = "version" ∧ T_str (Some 200) false (f_version f) = inl reason)
  ∨ (key = "title"
     ∧ ((f_title f = "" ∧ reason = "required")
        ∨ (200 < String.length (f_title f))%nat))
  ∨ (key = "url"
     ∧ (truthy (f_url f) = false
        ∨ ∃ u, f_url f = Some u ∧ u ≠ "" ∧ url_validator X u = None))
  ∨ (key = "description" ∧ (300 < String.length (f_description f))%nat)
  ∨ (key = "dt_updated" ∧ ∃ t, f_dt_updated f = Some (TimeString t)
       ∧ t ≠ "" ∧ parse_datetime X t = None)
  ∨ (key = "author_name" ∧ (100 < String.length (f_author_name f))%nat).
Proof.
  unfold validate_feed. intros H.
  pose proof (T_url_soft X (f_home_url f)) as [? Hh].
  pose proof (T_url_soft X (f_icon_url f)) as [? Hi].
  pose proof (T_url_soft X (f_author_url f)) as [? Ha].
  pose proof (T_url_soft X (f_author_avatar_url f)) as [? Hv].
  this_key. { inversion H; subst. by left. }
  this_key.
  { inversion H; subst. right; left. split; [done|]. by apply T_str_required_inl. }
  this_key.
  { inversion H; subst. do 2 right; left. split; [done|].
    apply T_url_inl in E1 as [(? & _)|(u & ? & ? & ? & _)]; [by left|right; eauto]. }
  this_key; [congruence|].
  this_key; [congruence|].
  this_key.
  { inversion H; subst. do 3 right; left. split; [done|].
    by eapply T_str_optional_inl. }
  this_key.
  { inversion H; subst. do 4 right; left. split; [done|].
    by eapply T_datetime_inl. }
  this_key.
  { inversion H; subst. do 5 right. split; [done|].
    by eapply T_str_optional_inl. }
  this_key; [congruence|].
  this_key; [congruence|].
  discriminate.
Qed.

End rejections.

(** ** What can abort a parse *)

#[local] Arguments slice_to : simpl never.

Lemma T_str_version_inl v r :
  T_str (Some 200) false v = inl r →
  (truthy v = false ∧ r = "required")
  ∨ (∃ s, v = Some s ∧ (200 < String.length s)%nat).
Proof.
  destruct v as [[|c s]|]; simpl.
  - intros [= <-]. by left.
  - case_decide; [done|]. intros _. right. eexists. split; [done|]. simpl in *. lia.
  - intros [= <-]. by left.
Qed.

Lemma parse_story_fields X story feed_url σ :
  let s := (_parse_story X story feed_url σ).1 in
  ident s = slice_to 200 (rs_ident story)
  ∧ title s = slice_to 200 (story_html_to_text X (rs_title story))
  ∧ url s = validate_url X (normlize_url X
              (Some (py_or (rs_url story) (rs_ident story))) feed_url)
  ∧ summary s = shorten X (story_html_to_text X
                  (Some (story_html_clean X (rs_summary story)))) 300
  ∧ author_name s = slice_to 100 (story_html_to_text X (rs_author_name story))
  ∧ dt_published s = rs_dt_published story
  ∧ dt_updated s = rs_dt_updated story
  ∧ image_url s = normlize_url X (rs_image_url story)
                    (story_base_url X story feed_url)
  ∧ author_url s = normlize_url X (rs_author_url story)
                     (story_base_url X story feed_url)
  ∧ author_avatar_url s = normlize_url X (rs_author_avatar_url story)
                            (story_base_url X story feed_url).
Proof.
  unfold _parse_story, story_base_url.
  by destruct (_process_content _ _ _ _).
Qed.

(** X1.  [_parse_feed] cuts the title, the description and the author name
    to the limits of [FeedSchema], so a feed that was built is rejected by
    [validate_feed] for four reasons only: a version that is missing or
    longer than 200 characters, a title whose text is empty, a URL that is
    missing or invalid, or an update time that cannot be read. *)
Theorem parsed_feed_rejections X feed key reason :
  validate_feed X (_parse_feed X feed) = inl (key, reason) →
  (key = "version"
     ∧ ((truthy (rf_version feed) = false ∧ reason = "required")
        ∨ ∃ v, rf_version feed = Some v ∧ (200 < String.length v)%nat))
  ∨ (key = "title" ∧ reason = "required"
     ∧ story_html_to_text X (rf_title feed) = "")
  ∨ (key = "url"
     ∧ (truthy (rf_url feed) = false
        ∨ ∃ u, rf_url feed = Some u ∧ u ≠ "" ∧ url_validator X u = None))
  ∨ (key = "dt_updated"
     ∧ ∃ t, rf_dt_updated feed = Some (TimeString t) ∧ t ≠ ""
         ∧ parse_datetime X t = None).
Proof.
  intros H. apply validate_feed_causes in H.
  destruct H as [[-> Hv]|[[-> Ht]|[[-> Hu]|[[-> Hd]|[[-> Hdt]|[-> Ha]]]]]];
    simpl in *.
  - left. split; [done|]. by apply T_str_version_inl.
  - right; left. destruct Ht as [[Hempty ->]|Hlong].
    + split_and!; [done|done|].
      apply slice_to_empty in Hempty as [?|?]; [done|lia].
    + pose proof (slice_to_length 200 (story_html_to_text X (rf_title feed))). lia.
  - do 2 right; left. done.
  - pose proof (slice_to_length 300 (story_html_to_text X (rf_description feed))).
    lia.
  - do 3 right. done.
  - pose proof (slice_to_length 100 (story_html_to_text X (rf_author_name feed))).
    lia.
Qed.

(** X1 on a feed without a URL. *)
Lemma parsed_feed_rejections_witness :
  let feed := {| rf_version := Some "rss20"; rf_title := Some "feed";
                 rf_url := None; rf_home_url := None; rf_icon_url := None;
                 rf_description := None; rf_dt_updated := None;
                 rf_author_name := None; rf_author_url := None;
                 rf_author_avatar_url := None |} in
  validate_feed plain (_parse_feed plain feed) = inl ("url", "required")
  ∧ truthy (rf_url feed) = false.
Proof.
  intros feed.
  assert (validate_feed plain (_parse_feed plain feed) = inl ("url", "required"))
    as Hrejected by reflexivity.
  split; [exact Hrejected|].
  destruct (parsed_feed_rejections plain feed "url" "required" Hrejected)
    as [[Hk _]|[[Hk _]|[[_ [Hnone|(u & Hu & _)]]|[Hk _]]]];
    try discriminate Hk.
  - exact Hnone.
  - discriminate Hu.
Defined.

(** X2.  [_parse_story] cuts the identifier, the title and the author name
    to the limits of [StorySchema], so a story that was built is rejected
    by [validate_story] for seven reasons only: an empty identifier, a
    title whose text is empty, a URL that [validate_url] accepted and the
    schema refuses, a processed content of more than [1024 * 1024]
    characters, a summary that [shorten] left longer than 300 characters,
    or a publication or update time that cannot be read. *)
Theorem parsed_story_rejections X story feed_url σ key reason :
  validate_story X (_parse_story X story feed_url σ).1 = inl (key, reason) →
  (key = "ident" ∧ reason = "required" ∧ rs_ident story = "")
  ∨ (key = "title" ∧ reason = "required"
     ∧ story_html_to_text X (rs_title story) = "")
  ∨ (key = "url"
     ∧ ∃ u, validate_url X (normlize_url X
              (Some (py_or (rs_url story) (rs_ident story))) feed_url) = Some u
         ∧ u ≠ "" ∧ url_validator X u = None)
  ∨ (key = "content"
     ∧ (1024 * 1024
        < len (_process_content X (rs_content story)
                 (story_base_url X story feed_url) σ).1)%Z)
  ∨ (key = "summary"
     ∧ (300 < String.length (shorten X (story_html_to_text X
                (Some (story_html_clean X (rs_summary story)))) 300))%nat)
  ∨ (key = "dt_published"
     ∧ ∃ t, rs_dt_published story = Some (TimeString t) ∧ t ≠ ""
         ∧ parse_datetime X t = None)
  ∨ (key = "dt_updated"
     ∧ ∃ t, rs_dt_updated story = Some (TimeString t) ∧ t ≠ ""
         ∧ parse_datetime X t = None).
Proof.
  intros H. apply validate_story_causes in H.
  destruct (parse_story_fields X story feed_url σ)
    as (Hi & Ht & Hu & Hs & Ha & Hp & Hd & _).
  pose proof (parse_story_content X story feed_url σ) as Hc.
  fold (story_base_url X story feed_url) in Hc.
  cbv zeta in *. rewrite Hi, Ht, Hu, Hs, Ha, Hp, Hd, Hc in H.
  clear Hi Ht Hu Hs Ha Hp Hd Hc.
  destruct H
    as [[-> Hi]|[[-> Ht]|[[-> Hu]|[[-> Hc]|[[-> Hs]|[[-> Hp]|[[-> Hd]|[-> Ha]]]]]]]].
  - left. destruct Hi as [[Hempty ->]|Hlong].
    + split_and!; [done|done|].
      apply slice_to_empty in Hempty as [?|?]; [done|lia].
    + pose proof (slice_to_length 200 (rs_ident story)). lia.
  - right; left. destruct Ht as [[Hempty ->]|Hlong].
    + split_and!; [done|done|].
      apply slice_to_empty in Hempty as [?|?]; [done|lia].
    + pose proof (slice_to_length 200 (story_html_to_text X (rs_title story))). lia.
  - do 2 right; left. done.
  - do 3 right; left. split; [done|].
    apply length_is_len in Hc. by rewrite default_maxlen_is_ceiling in Hc.
  - do 4 right; left. done.
  - do 5 right; left. done.
  - do 6 right. done.
  - pose proof (slice_to_length 100 (story_html_to_text X (rs_author_name story))).
    lia.
Qed.

(** X2 on a story without a title. *)
Lemma parsed_story_rejections_witness :
  let story := {| rs_ident := "tag:1"; rs_title := None;
                  rs_url := Some "http://example.com/1";
                  rs_content := Some "x"; rs_summary := None;
                  rs_image_url := None; rs_dt_published := None;
                  rs_dt_updated := None; rs_author_name := None;
                  rs_author_url := None; rs_author_avatar_url := None |} in
  validate_story plain (_parse_story plain story None empty_state).1
    = inl ("title", "required")
  ∧ story_html_to_text plain (rs_title story) = "".
Proof.
  intros story.
  assert (validate_story plain (_parse_story plain story None empty_state).1
          = inl ("title", "required")) as Hrejected by reflexivity.
  split; [exact Hrejected|].
  destruct (parsed_story_rejections plain story None empty_state
              "title" "required" Hrejected)
    as [[Hk _]|[(_ & _ & Htext)|[[Hk _]|[[Hk _]|[[Hk _]|[[Hk _]|[Hk _]]]]]]];
    try discriminate Hk.
  exact Htext.
Defined.

(** ** The validation pass *)

(** X3.  [_validate_result] returns a result exactly when the feed and
    every story pass their schema; the result then holds the validated
    feed, the validated stories one for one and in order, and the very
    checksum object of the result it was given. *)
Theorem validate_result_accepts X result r :
  _validate_result X result = inr r
  ↔ validate_feed X (feed result) = inr (feed r)
    ∧ Forall2 (λ s s', validate_story X s = inr s') (storys result) (storys r)
    ∧ checksum r = checksum result.
Proof.
  split.
  - intros H. apply validate_result_inr in H as (? & ? & ?). done.
  - intros (Hfeed & Hstorys & Hsum). unfold _validate_result.
    rewrite Hfeed, (validate_storys_all X 0 _ _ Hstorys), <- Hsum.
    by destruct r.
Qed.

(** X4.  [_validate_result] stops at the first failure.  A feed that is
    rejected gives an error without an index, whatever the stories are;
    otherwise the first story that is rejected gives an error with its
    index, and the stories after it are not looked at. *)
Theorem validate_result_first_failure X result :
  (∀ key reason, validate_feed X (feed result) = inl (key, reason) →
     _validate_result X result
     = inl {| err_index := None; err_field := key; err_reason := reason |})
  ∧ (∀ f (good : list Story) bad rest key reason,
       validate_feed X (feed result) = inr f →
       storys result = (good ++ bad :: rest)%list →
       Forall (λ s, ∃ s', validate_story X s = inr s') good →
       validate_story X bad = inl (key, reason) →
       _validate_result X result
       = inl {| err_index := Some (length good);
                err_field := key; err_reason := reason |}).
Proof.
  split.
  - intros key reason Hfeed. unfold _validate_result. by rewrite Hfeed.
  - intros f good bad rest key reason Hfeed Hsplit Hgood Hbad.
    unfold _validate_result. rewrite Hfeed, Hsplit.
    by rewrite (validate_storys_stops X 0 good bad rest key reason Hgood Hbad).
Qed.

(** X4 on three stories of which the second and the third have no title:
    the error names the second. *)
Lemma validate_result_first_failure_witness :
  let build story := (_parse_story plain story None empty_state).1 in
  let good := build (a_story "a" "x") in
  let bad := build (titled (a_story "b" "y") None) in
  let result := {| feed := _parse_feed plain a_feed;
                   storys := [good; bad; bad]; checksum := 0%nat |} in
  _validate_result plain result
  = inl {| err_index := Some 1%nat; err_field := "title";
           err_reason := "required" |}.
Proof.
  intros build good bad result.
  destruct (validate_result_first_failure plain result) as [_ Hstory].
  eapply (Hstory _ [good] bad [bad] "title" "required").
  - vm_compute. reflexivity.
  - reflexivity.
  - constructor; [|constructor]. eexists. vm_compute. reflexivity.
  - reflexivity.
Defined.

(** ** Errors and the state they leave *)

Lemma parsed_retained X self raw σ i s :
  parsed X self raw σ !! i = Some s →
  ∃ story σ', retained X self raw σ !! i = Some story
    ∧ s = (_parse_story X story (rf_url (raw_feed raw)) σ').1.
Proof.
  intros Hs. assert (i < length (retained X self raw σ))%nat as Hlt.
  { rewrite <- parsed_length. by eapply lookup_lt_Some. }
  apply lookup_lt_is_Some_2 in Hlt as [story Hstory].
  destruct (parsed_lookup X self raw σ i story Hstory) as [σ' Hs'].
  exists story, σ'. split; [done|]. congruence.
Qed.

(** X5.  The index in a parser error counts the stories that were
    retained, not the stories of the raw feed: it is the position, among
    the new and changed stories, of the first one that the schema rejects. *)
Theorem error_index_counts_retained X self raw σ e i :
  (parse X self raw σ).1 = inl e →
  err_index e = Some i →
  ∃ story σ',
    retained X self raw σ !! i = Some story
    ∧ validate_story X (_parse_story X story (rf_url (raw_feed raw)) σ').1
      = inl (err_field e, err_reason e)
    ∧ ∀ j earlier, (j < i)%nat → retained X self raw σ !! j = Some earlier →
        ∃ σ'' s', validate_story X
                    (_parse_story X earlier (rf_url (raw_feed raw)) σ'').1
                  = inr s'.
Proof.
  intros He Hi. rewrite parse_answer in He. cbv zeta in He.
  destruct (_validate self); [|done].
  apply validate_result_inl in He
    as [[Hnone _]|(j & s & Hj & Hlook & Hbad & Hbefore)]; [congruence|].
  simpl in *. assert (j = i) as -> by congruence.
  destruct (parsed_retained X self raw σ i s Hlook) as (story & σ' & Hst & ->).
  exists story, σ'. split_and!; [done|done|].
  intros k earlier Hk Hearlier.
  destruct (parsed_lookup X self raw σ k earlier Hearlier) as [σ'' Hs''].
  destruct (Hbefore k _ Hk Hs'') as [s' Hs']. by exists σ'', s'.
Qed.

(** X5 on a feed of two stories.  The checksum knows the first, the
    second has no title: the error carries the index 0, while the story
    is the second of the feed. *)
Lemma error_index_counts_retained_witness :
  let known := a_story "a" "x" in
  let untitled := titled (a_story "b" "y") None in
  let raw := {| raw_feed := a_feed; raw_storys := [known; untitled] |} in
  let self := {| _checksum := 0%nat; _validate := true |} in
  let σ := {| heap := {[0%nat := {["a" := content_hash plain "x"]}]};
              logs := [] |} in
  let e := {| err_index := Some 0%nat; err_field := "title";
              err_reason := "required" |} in
  (parse plain self raw σ).1 = inl e
  ∧ raw_storys raw !! 1%nat = Some untitled
  ∧ retained plain self raw σ !! 0%nat = Some untitled.
Proof.
  intros known untitled raw self σ e.
  assert ((parse plain self raw σ).1 = inl e) as Herr by (vm_compute; reflexivity).
  split; [exact Herr|]. split; [reflexivity|].
  destruct (error_index_counts_retained plain self raw σ e 0 Herr eq_refl)
    as (story & σ' & Hstory & _).
  vm_compute. reflexivity.
Defined.

Lemma check_update_validate_free X c v1 v2 storys σ :
  _check_update_storys X {| _checksum := c; _validate := v1 |} storys σ
  = _check_update_storys X {| _checksum := c; _validate := v2 |} storys σ.
Proof.
  revert σ; induction storys as [|s rest IH]; intros σ; simpl; [done|].
  destruct (update_at _ _ _ _ σ) as [changed σ1]. by rewrite IH.
Qed.

(** X6.  Validation has no effect on the state: whether [validate] is set
    or not, and whether the parse returns or raises, it leaves the same
    checksum objects and the same log behind, and both retain the same
    stories. *)
Theorem validation_leaves_no_trace X c raw σ :
  (parse X {| _checksum := c; _validate := true |} raw σ).2
  = (parse X {| _checksum := c; _validate := false |} raw σ).2
  ∧ retained X {| _checksum := c; _validate := true |} raw σ
    = retained X {| _checksum := c; _validate := false |} raw σ
  ∧ deref (parse X {| _checksum := c; _validate := true |} raw σ).2 c
    = (changed_storys (content_hash X) (raw_storys raw) (deref σ c)).2.
Proof.
  split_and!.
  - unfold parse.
    rewrite (check_update_validate_free X c true false).
    destruct (_check_update_storys X _ (raw_storys raw) σ) as [upd σ1].
    by destruct (parse_storys X upd _ σ1).
  - unfold retained. by rewrite (check_update_validate_free X c true false).
  - rewrite parse_deref. apply (check_update_deref X {| _checksum := c |}).
Qed.

(** X7.  A parse that is aborted for a story has already advanced the
    checksum.  On a feed with distinct identifiers, parsing the same feed
    again with the same parser then retains nothing and returns a result
    without stories: the rejected story and the stories that came with it
    are not seen again. *)
Theorem retry_after_rejection_is_empty X self raw σ e i :
  NoDup (rs_ident <$> raw_storys raw) →
  (parse X self raw σ).1 = inl e →
  err_index e = Some i →
  retained X self raw (parse X self raw σ).2 = []
  ∧ ∃ r, (parse X self raw (parse X self raw σ).2).1 = inr r
      ∧ storys r = []
      ∧ checksum r = _checksum self.
Proof.
  intros Hnd He Hi.
  assert (retained X self raw (parse X self raw σ).2 = []) as Hnone.
  { rewrite retained_changed, parse_deref, check_update_deref.
    rewrite changed_storys_again; [done|].
    intros s Hin. by apply changed_storys_recorded. }
  split; [done|].
  rewrite parse_answer in He. rewrite parse_answer. cbv zeta in *.
  rewrite (parsed_nil _ _ _ _ Hnone).
  destruct (_validate self); [|done].
  unfold _validate_result in *. simpl in *.
  destruct (validate_feed X (_parse_feed X (raw_feed raw))) as [[k reason]|f].
  - inversion He; subst. simpl in Hi. discriminate.
  - eexists. split; [reflexivity|]. done.
Qed.

(** X7 on a feed whose only story has no title. *)
Lemma retry_after_rejection_is_empty_witness :
  let raw := {| raw_feed := a_feed;
                raw_storys := [titled (a_story "a" "x") None] |} in
  let self := (FeedParser_init None true empty_state).1 in
  let σ := (FeedParser_init None true empty_state).2 in
  let e := {| err_index := Some 0%nat; err_field := "title";
              err_reason := "required" |} in
  (parse plain self raw σ).1 = inl e
  ∧ ∃ r, (parse plain self raw (parse plain self raw σ).2).1 = inr r
      ∧ storys r = [] ∧ checksum r = _checksum self.
Proof.
  intros raw self σ e.
  assert ((parse plain self raw σ).1 = inl e) as Herr by (vm_compute; reflexivity).
  split; [exact Herr|].
  apply (retry_after_rejection_is_empty plain self raw σ e 0).
  - apply (bool_decide_unpack _). vm_compute. exact I.
  - exact Herr.
  - reflexivity.
Defined.

(** ** What the checksum filter retains and records *)

Lemma changed_storys_filter h storys (c c' : FeedChecksum) :
  NoDup (rs_ident <$> storys) →
  (∀ s, s ∈ storys → c' !! rs_ident s = c !! rs_ident s) →
  (changed_storys h storys c').1
  = filter (λ s, c !! rs_ident s ≠ Some (h (py_or (rs_content s) ""))) storys.
Proof.
  revert c'; induction storys as [|s rest IH]; intros c' Hnd Hagree; [done|].
  rewrite fmap_cons in Hnd. apply NoDup_cons in Hnd as [Hfresh Hnd].
  simpl.
  pose proof (FeedChecksum_update_answer h (rs_ident s)
    (py_or (rs_content s) "") c') as Hanswer.
  pose proof (FeedChecksum_update_other h (rs_ident s)
    (py_or (rs_content s) "") c') as Hother.
  destruct (FeedChecksum_update h _ _ c') as [changed c1]; simpl in *.
  assert (∀ s', s' ∈ rest → c1 !! rs_ident s' = c !! rs_ident s') as Hagree'.
  { intros s' Hin. rewrite Hother; [apply Hagree; by right|].
    intros Heq. apply Hfresh. rewrite <- Heq. by apply list_elem_of_fmap_2. }
  specialize (IH c1 Hnd Hagree').
  destruct (changed_storys h rest c1) as [upd c2]; simpl in *.
  rewrite (Hagree s) in Hanswer by left.
  destruct changed.
  - rewrite filter_cons_True; [by f_equal|].
    intros Hsame. apply Hanswer in Hsame. done.
  - rewrite filter_cons_False; [done|].
    intros Hdiff. apply Hdiff. by apply Hanswer.
Qed.

(** X8.  On a feed with distinct identifiers a parse retains exactly the
    stories whose content hash is not the one the checksum holds for their
    identifier, in the order of the feed. *)
Theorem retained_is_filter X self raw σ :
  NoDup (rs_ident <$> raw_storys raw) →
  retained X self raw σ
  = filter (λ story,
      deref σ (_checksum self) !! rs_ident story
      ≠ Some (content_hash X (py_or (rs_content story) "")))
    (raw_storys raw).
Proof.
  intros Hnd. rewrite retained_changed. by apply changed_storys_filter.
Qed.

(** X8 on a checksum that knows the first of two stories. *)
Lemma retained_is_filter_witness :
  let raw := {| raw_feed := a_feed;
                raw_storys := [a_story "a" "x"; a_story "b" "y"] |} in
  let self := {| _checksum := 0%nat; _validate := true |} in
  let σ := {| heap := {[0%nat := {["a" := content_hash plain "x"]}]};
              logs := [] |} in
  NoDup (rs_ident <$> raw_storys raw)
  ∧ retained plain self raw σ = [a_story "b" "y"].
Proof.
  intros raw self σ.
  assert (NoDup (rs_ident <$> raw_storys raw)) as Hnd.
  { apply (bool_decide_unpack _). vm_compute. exact I. }
  split; [exact Hnd|].
  rewrite (retained_is_filter plain self raw σ Hnd).
  vm_compute. reflexivity.
Defined.

(** X9.  Whatever the feed, the retained stories are a subsequence of its
    stories: none is invented, none is repeated, the order is kept; so a
    result never has more stories than the raw feed. *)
Theorem retained_is_subsequence X self raw σ :
  sublist (retained X self raw σ) (raw_storys raw)
  ∧ ∀ r, (parse X self raw σ).1 = inr r →
      (length (storys r) ≤ length (raw_storys raw))%nat.
Proof.
  assert (sublist (retained X self raw σ) (raw_storys raw)) as Hsub.
  { rewrite retained_changed. apply changed_storys_sublist. }
  split; [done|]. intros r Hr.
  apply sublist_length in Hsub. rewrite <- parsed_length in Hsub.
  rewrite parse_answer in Hr. cbv zeta in Hr. destruct (_validate self).
  - apply validate_result_inr in Hr as (_ & _ & Hall). simpl in Hall.
    apply Forall2_length in Hall. lia.
  - inversion Hr; subst; simpl. lia.
Qed.

Lemma changed_storys_last h storys (c : FeedChecksum) k :
  (changed_storys h storys c).2 !! k
  = match last (filter (λ s, rs_ident s = k) storys) with
    | Some s => Some (h (py_or (rs_content s) ""))
    | None => c !! k
    end.
Proof.
  revert c; induction storys as [|s rest IH]; intros c; [done|]. simpl.
  pose proof (FeedChecksum_update_lookup h (rs_ident s)
    (py_or (rs_content s) "") c) as Hsame.
  pose proof (FeedChecksum_update_other h (rs_ident s)
    (py_or (rs_content s) "") c k) as Hother.
  destruct (FeedChecksum_update h _ _ c) as [changed c1]; simpl in *.
  specialize (IH c1). destruct (changed_storys h rest c1) as [upd c2]; simpl in *.
  rewrite IH. destruct (decide (rs_ident s = k)) as [Hk|Hk].
  - rewrite filter_cons_True by done. rewrite last_cons.
    destruct (last (filter _ rest)); [done|]. by rewrite <- Hk.
  - rewrite filter_cons_False by done.
    destruct (last (filter _ rest)); [done|]. apply Hother. congruence.
Qed.

(** X10.  The checksum after a parse, key by key: a key that is the
    identifier of stories of the feed holds the hash of the raw content of
    the last of them, an absent content counting as the empty text; every
    other key holds what it held.  So a parse never forgets a key. *)
Theorem checksum_after_parse X self raw σ k :
  let before := deref σ (_checksum self) in
  let after := deref (parse X self raw σ).2 (_checksum self) in
  after !! k
  = match last (filter (λ story, rs_ident story = k) (raw_storys raw)) with
    | Some story => Some (content_hash X (py_or (rs_content story) ""))
    | None => before !! k
    end
  ∧ (is_Some (before !! k) → is_Some (after !! k)).
Proof.
  intros before after. subst before after.
  rewrite parse_deref, check_update_deref, changed_storys_last.
  split; [done|]. by destruct (last _); eauto.
Qed.

(** X11.  Content identity is the hash of the content and nothing else.
    After a feed with distinct identifiers has been parsed, a feed that
    carries the same identifiers with contents of the same hashes retains
    nothing, whatever became of titles, links, dates or authors. *)
Theorem same_hash_is_not_retained X self raw raw' σ :
  NoDup (rs_ident <$> raw_storys raw) →
  Forall2 (λ s s', rs_ident s = rs_ident s'
             ∧ content_hash X (py_or (rs_content s) "")
               = content_hash X (py_or (rs_content s') ""))
          (raw_storys raw) (raw_storys raw') →
  retained X self raw' (parse X self raw σ).2 = [].
Proof.
  intros Hnd Hsame. rewrite retained_changed, parse_deref, check_update_deref.
  rewrite changed_storys_again; [done|].
  intros s' Hin'.
  apply list_elem_of_lookup in Hin' as [i Hi'].
  destruct (Forall2_lookup_r _ _ _ _ _ Hsame Hi') as (s & Hi & Hid & Hhash).
  rewrite <- Hid, <- Hhash.
  apply changed_storys_recorded; [done|]. by eapply list_elem_of_lookup_2.
Qed.

(** X11 on a story that comes back under another title, and without its
    content where it had an empty one. *)
Lemma same_hash_is_not_retained_witness :
  let blank := {| rs_ident := "b"; rs_title := Some "title";
                  rs_url := None; rs_content := Some "";
                  rs_summary := None; rs_image_url := None;
                  rs_dt_published := None; rs_dt_updated := None;
                  rs_author_name := None; rs_author_url := None;
                  rs_author_avatar_url := None |} in
  let absent := {| rs_ident := "b"; rs_title := Some "title";
                   rs_url := None; rs_content := None;
                   rs_summary := None; rs_image_url := None;
                   rs_dt_published := None; rs_dt_updated := None;
                   rs_author_name := None; rs_author_url := None;
                   rs_author_avatar_url := None |} in
  let raw := {| raw_feed := a_feed;
                raw_storys := [a_story "a" "x"; blank] |} in
  let raw' := {| raw_feed := a_feed;
                 raw_storys := [titled (a_story "a" "x") (Some "renamed");
                                absent] |} in
  let self := (FeedParser_init None true empty_state).1 in
  let σ := (FeedParser_init None true empty_state).2 in
  raw_storys raw ≠ raw_storys raw'
  ∧ retained plain self raw' (parse plain self raw σ).2 = [].
Proof.
  intros blank absent raw raw' self σ.
  split; [discriminate|].
  apply (same_hash_is_not_retained plain self raw raw' σ).
  - apply (bool_decide_unpack _). vm_compute. exact I.
  - repeat constructor.
Defined.

(** X12.  The checksum of a result is the parser's own object, not a
    snapshot of it: when the same parser parses another feed, the result
    of the earlier parse sees the stories of the later one. *)
Theorem result_checksum_is_live X self raw σ r raw' story :
  (parse X self raw σ).1 = inr r →
  story ∈ raw_storys raw' →
  let σ' := (parse X self raw' (parse X self raw σ).2).2 in
  checksum r = _checksum self
  ∧ is_Some (deref σ' (checksum r) !! rs_ident story).
Proof.
  intros Hr Hin σ'. apply parse_checksum in Hr as ->. split; [done|].
  subst σ'. rewrite parse_deref, check_update_deref.
  pose proof (changed_storys_key (content_hash X) (raw_storys raw')
    (deref (parse X self raw σ).2 (_checksum self)) (rs_ident story))
    as [[_ Hnot]|(s & _ & _ & Hs)].
  - exfalso. apply Hnot. by apply list_elem_of_fmap_2.
  - rewrite Hs. eauto.
Qed.

(** X12 on two feeds of one story each. *)
Lemma result_checksum_is_live_witness :
  let raw := {| raw_feed := a_feed; raw_storys := [a_story "a" "x"] |} in
  let raw' := {| raw_feed := a_feed; raw_storys := [a_story "b" "y"] |} in
  let self := (FeedParser_init None true empty_state).1 in
  let σ := (FeedParser_init None true empty_state).2 in
  ∃ r, (parse plain self raw σ).1 = inr r
    ∧ deref (parse plain self raw σ).2 (checksum r) !! "b" = None
    ∧ is_Some (deref (parse plain self raw' (parse plain self raw σ).2).2
                 (checksum r) !! "b").
Proof.
  intros raw raw' self σ.
  destruct (parse plain self raw σ).1 as [e|r] eqn:Hr;
    [vm_compute in Hr; discriminate Hr|].
  exists r. split; [reflexivity|].
  destruct (result_checksum_is_live plain self raw σ r raw' (a_story "b" "y") Hr)
    as [Hsum Hlive]; [by left|].
  split; [|exact Hlive].
  rewrite Hsum. vm_compute. reflexivity.
Defined.

(** ** The effects of a parse *)

Section effects.

Variable X : Externals.

(** Whether the content of a story is over the size limit once cleaned. *)
Local Abbreviation oversized story :=
  (1024 * 1024 ≤ len (story_html_clean X (rs_content story)))%Z.

Local Abbreviation warning feed_url story :=
  (Warning too_large_msg (story_base_url X story feed_url)
     (len (story_html_clean X (rs_content story)))).

Lemma parse_story_logs story feed_url σ :
  logs (_parse_story X story feed_url σ).2
  = (logs σ ++ if decide (oversized story) then [warning feed_url story] else [])%list.
Proof.
  unfold _parse_story, _process_content, story_base_url.
  destruct (len _ >=? _)%Z eqn:Hbig; simpl.
  - rewrite decide_True by lia. done.
  - rewrite decide_False by lia. by rewrite app_nil_r.
Qed.

Lemma parse_storys_logs update_storys feed_url σ :
  logs (parse_storys X update_storys feed_url σ).2
  = (logs σ ++ ((λ story, warning feed_url story)
                 <$> filter (λ story, oversized story) update_storys))%list.
Proof.
  revert σ; induction update_storys as [|s rest IH]; intros σ; simpl.
  { by rewrite app_nil_r. }
  pose proof (parse_story_logs s feed_url σ) as Hs.
  destruct (_parse_story X s feed_url σ) as [s' σ1]; simpl in *.
  specialize (IH σ1). destruct (parse_storys X rest feed_url σ1) as [l σ2].
  simpl in *. rewrite IH, Hs. rewrite <- app_assoc. f_equal.
  destruct (decide (oversized s)).
  - by rewrite filter_cons_True.
  - by rewrite filter_cons_False.
Qed.

Lemma parse_logs self raw σ :
  logs (parse X self raw σ).2
  = (logs σ ++ ((λ story, warning (rf_url (raw_feed raw)) story)
                 <$> filter (λ story, oversized story)
                       (retained X self raw σ)))%list.
Proof.
  unfold parse, retained.
  pose proof (check_update_logs X self (raw_storys raw) σ) as Hlogs.
  destruct (_check_update_storys X self (raw_storys raw) σ) as [upd σ1].
  pose proof (parse_storys_logs upd (f_url (_parse_feed X (raw_feed raw))) σ1)
    as Hbuilt.
  destruct (parse_storys X upd _ σ1) as [l σ2]; simpl in *.
  rewrite <- Hlogs. by destruct (_validate self).
Qed.

(** X13.  The effects of a parse, whether it returns or raises.  It
    changes no checksum object but the parser's own, and it adds to the
    log one warning for each retained story whose cleaned content has
    [1024 * 1024] characters or more, in the order of the stories, and
    nothing else; a story that is not retained is never warned about. *)
Theorem parse_effects self raw σ :
  (∀ l, l ≠ _checksum self → heap (parse X self raw σ).2 !! l = heap σ !! l)
  ∧ logs (parse X self raw σ).2
    = (logs σ ++ ((λ story, warning (rf_url (raw_feed raw)) story)
                   <$> filter (λ story, oversized story)
                         (retained X self raw σ)))%list.
Proof.
  split; [intros l Hl; by apply parse_frame|]. apply parse_logs.
Qed.

End effects.

(** ** A validated result meets the schema *)

Section schema.

Variable X : Externals.

Ltac a_key :=
  match goal with
  | H : at_key ?k ?r _ = _ |- _ =>
      let v := fresh "v" in
      let E := fresh "E" in
      destruct r as [?reason|v] eqn:E;
      unfold at_key at 1 in H; cbv beta iota in H
  end.

Lemma T_datetime_inr v t : T_datetime X v = inr t → checked_time t.
Proof.
  destruct v as [[z|[|c s]]|]; simpl; try by intros [= <-].
  destruct (parse_datetime X _); [by intros [= <-]|done].
Qed.

Lemma T_url_inr optional soft v u :
  T_url X optional soft v = inr u →
  u = None ∨ ∃ given valid, v = Some given ∧ url_validator X given = Some valid
                ∧ u = Some valid.
Proof.
  destruct v as [[|c s]|]; simpl.
  - destruct optional; [intros [= <-]; by left|done].
  - destruct (url_validator X _) as [valid|] eqn:Hv.
    + intros [= <-]. right. by eexists _, _.
    + destruct soft; [intros [= <-]; by left|done].
  - destruct optional; [intros [= <-]; by left|done].
Qed.

Lemma url_from_validator optional soft v u :
  T_url X optional soft v = inr u →
  ∀ valid, u = Some valid → ∃ given, url_validator X given = Some valid.
Proof.
  intros Hu valid ->. apply T_url_inr in Hu as [?|(given & valid' & _ & ? & ?)];
    [done|]. exists given. congruence.
Qed.

Lemma validate_story_meets_schema s s' :
  validate_story X s = inr s' → meets_story_schema X s'.
Proof.
  unfold validate_story. intros H.
  repeat (a_key; [discriminate|]).
  inversion H; subst; clear H. unfold meets_story_schema; simpl.
  apply T_str_required_inr in E as Hi. apply T_str_bounded_inr in E.
  apply T_str_required_inr in E0 as Ht. apply T_str_bounded_inr in E0.
  apply T_str_bounded_inr in E3. apply T_str_bounded_inr in E7.
  apply T_datetime_inr in E5. apply T_datetime_inr in E6.
  destruct Hi as [? _], Ht as [? _].
  split_and!; try done.
  repeat constructor; by eapply url_from_validator.
Qed.

Lemma validate_feed_meets_schema f f' :
  validate_feed X f = inr f' → meets_feed_schema X f'.
Proof.
  unfold validate_feed. intros H.
  repeat (a_key; [discriminate|]).
  inversion H; subst; clear H. unfold meets_feed_schema; simpl.
  apply T_str_required_inr in E as Hv. apply T_str_bounded_inr in E.
  apply T_str_required_inr in E0 as Ht. apply T_str_bounded_inr in E0.
  apply T_str_bounded_inr in E4. apply T_str_bounded_inr in E6.
  apply T_datetime_inr in E5.
  destruct Hv as [? _], Ht as [? _].
  apply T_url_inr in E1 as Hu.
  destruct Hu as [->|(given & valid & _ & ? & ->)].
  { by apply T_url_required_inr in E1 as [? [=]]. }
  split_and!; try done; [by eexists|by eexists _, _|].
  repeat constructor; by eapply url_from_validator.
Qed.

(** X14.  With [validate=True], a result that is returned meets the
    schemas: its feed has a version and a title, not empty and of at most
    200 characters, and a valid URL; every story has an identifier and a
    title, not empty and of at most 200 characters; summaries are within
    300 characters, descriptions within 300, author names within 100;
    every timestamp is absent or an object; and every URL that is present
    is one the URL validator gave out. *)
Theorem validated_result_meets_schema self raw σ r :
  _validate self = true →
  (parse X self raw σ).1 = inr r →
  meets_feed_schema X (feed r) ∧ Forall (meets_story_schema X) (storys r).
Proof.
  intros Hval Hr. rewrite parse_answer, Hval in Hr. cbv zeta in Hr.
  apply validate_result_inr in Hr as (_ & Hfeed & Hstorys). simpl in *.
  split; [by eapply validate_feed_meets_schema|].
  induction Hstorys as [|s s' l l' Hs _ IH]; constructor; [|done].
  by eapply validate_story_meets_schema.
Qed.

End schema.

(** X14 on a feed of one story. *)
Lemma validated_result_meets_schema_witness :
  let raw := {| raw_feed := a_feed; raw_storys := [a_story "a" "x"] |} in
  let self := (FeedParser_init None true empty_state).1 in
  let σ := (FeedParser_init None true empty_state).2 in
  ∃ r, (parse plain self raw σ).1 = inr r
    ∧ meets_feed_schema plain (feed r)
    ∧ Forall (meets_story_schema plain) (storys r).
Proof.
  intros raw self σ.
  destruct (parse plain self raw σ).1 as [e|r] eqn:Hr;
    [vm_compute in Hr; discriminate Hr|].
  exists r. split; [reflexivity|].
  apply (validated_result_meets_schema plain self raw σ r); [reflexivity|exact Hr].
Defined.

(** ** The query of a test request *)

Lemma parse_query_snoc pairs kv :
  _parse_query (pairs ++ [kv]) = <[kv.1 := kv.2]> (_parse_query pairs).
Proof. unfold _parse_query. by rewrite foldl_app. Qed.

(** X15.  [_parse_query] keeps, for every key of the query string, the
    value of its last occurrence, and it has no other keys. *)
Theorem parse_query_last_wins (pairs : list (string * string)) (k : string) :
  _parse_query pairs !! k = snd <$> last (filter (λ kv, kv.1 = k) pairs)
  ∧ (is_Some (_parse_query pairs !! k) ↔ k ∈ pairs.*1).
Proof.
  assert (∀ l : list (string * string),
    _parse_query l !! k = snd <$> last (filter (λ kv, kv.1 = k) l)) as Hlast.
  { induction l as [|kv l IH] using rev_ind; [done|].
    rewrite parse_query_snoc, filter_app.
    destruct (decide (kv.1 = k)) as [Hk|Hk].
    - rewrite (filter_cons_True _ kv) by done.
      rewrite filter_nil, last_snoc. simpl. rewrite <- Hk. apply lookup_insert_eq.
    - rewrite (filter_cons_False _ kv) by done.
      rewrite filter_nil, app_nil_r, lookup_insert_ne by done. apply IH. }
  split; [apply Hlast|]. rewrite Hlast. split.
  - intros [v Hv]. apply fmap_Some in Hv as (kv & Hkv & _).
    apply last_Some_elem_of in Hkv. apply list_elem_of_filter in Hkv as [Hk Hin].
    rewrite <- Hk. by apply list_elem_of_fmap_2.
  - intros Hin. apply list_elem_of_fmap in Hin as (kv & -> & Hin).
    assert (kv ∈ filter (λ kv', kv'.1 = kv.1) pairs) as Hf
      by (by apply list_elem_of_filter).
    destruct (filter (λ kv', kv'.1 = kv.1) pairs) as [|x l] using rev_ind.
    + by apply elem_of_nil in Hf.
    + rewrite last_snoc. by eexists.
Qed.

(** ** A feed without news *)

(** X16.  When the checksum already holds, for every story of the feed,
    the hash of its content, a parse is without effect: it retains no
    story, leaves the checksum as it is and logs nothing; and the result
    it returns, if the feed passes validation, has no stories. *)
Theorem unchanged_feed_is_noop X self raw σ :
  (∀ story, story ∈ raw_storys raw →
     deref σ (_checksum self) !! rs_ident story
     = Some (content_hash X (py_or (rs_content story) ""))) →
  retained X self raw σ = []
  ∧ deref (parse X self raw σ).2 (_checksum self) = deref σ (_checksum self)
  ∧ logs (parse X self raw σ).2 = logs σ
  ∧ ∀ r, (parse X self raw σ).1 = inr r → storys r = [].
Proof.
  intros Hknown.
  pose proof (changed_storys_again (content_hash X) (raw_storys raw)
    (deref σ (_checksum self)) Hknown) as Hagain.
  assert (retained X self raw σ = []) as Hnone.
  { by rewrite retained_changed, Hagain. }
  split_and!.
  - done.
  - by rewrite parse_deref, check_update_deref, Hagain.
  - rewrite parse_logs, Hnone.
    by rewrite filter_nil, fmap_nil, app_nil_r.
  - intros r Hr. rewrite parse_answer, (parsed_nil _ _ _ _ Hnone) in Hr.
    cbv zeta in Hr. destruct (_validate self).
    + apply validate_result_inr in Hr as (_ & _ & Hall). simpl in Hall.
      by inversion Hall.
    + by inversion Hr.
Qed.

(** X16 on a checksum that knows the only story of the feed. *)
Lemma unchanged_feed_is_noop_witness :
  let raw := {| raw_feed := a_feed; raw_storys := [a_story "a" "x"] |} in
  let self := {| _checksum := 0%nat; _validate := true |} in
  let σ := {| heap := {[0%nat := {["a" := content_hash plain "x"]}]};
              logs := [] |} in
  retained plain self raw σ = []
  ∧ deref (parse plain self raw σ).2 (_checksum self) = deref σ (_checksum self).
Proof.
  intros raw self σ.
  destruct (unchanged_feed_is_noop plain self raw σ) as (Hnone & Hsame & _).
  { intros story Hin. apply list_elem_of_singleton in Hin as ->.
    vm_compute. reflexivity. }
  split; [exact Hnone | exact Hsame].
Defined.
